(** * Authority Graph Builder: a shallow embedding and its properties

    The development follows [authority-graph-builder.js].  Its three exported
    functions, [normalizeAmount], [buildAuthorityGraph] and
    [buildSingleWalletGraph], are transcribed as Rocq functions; a JavaScript
    exception becomes an explicit [Throw] result; and the plain object that
    the builder uses as a dictionary becomes a finite map over its own
    properties, with the names it inherits from [Object.prototype] kept
    beside it.  Of the library functions the code calls, [String] and
    [toUpperCase] are transcribed where the standard gives their result in
    closed form (integers, ASCII strings) and left to an [Engine] elsewhere;
    [localeCompare] is a parameter; [Array.prototype.sort] is the insertion
    sort.  Two consumers of the builder follow it: the statistics of the
    tree view of [visualize-graph-ascii.js] and the [assertThrows] helper of
    the test file. *)

From Stdlib Require Import ZArith String Ascii List Lia DecimalString Permutation.
From Stdlib Require Import DecimalZ SpecFloat.
From stdpp Require Import gmap strings list fin_maps sorting.

Local Open Scope string_scope.
Local Open Scope list_scope.

(** ** JavaScript values *)

(** A Number is an IEEE 754 double: a [spec_float] of the binary64 format
    (53 bits of precision, exponents up to 1024).  [S754_finite s m e] is
    the number (-1)^s × m × 2^e. *)
Record Number : Type := {
  Number_value : spec_float;
  Number_valid : valid_binary 53 1024 Number_value = true
}.

(** The values an [amount] can hold: a string, a number, [null], a boolean,
    or [undefined] for a field that is missing; an object is not among
    them.  A string is the sequence of the bytes of its UTF-8 encoding: an
    ASCII character is one byte below 128, any other character a run of
    bytes from 128 up. *)
Inductive JsValue : Type :=
  | JsUndefined
  | JsNull
  | JsBoolean (b : bool)
  | JsNumber (x : Number)
  | JsString (s : string).

(** What the engine computes from algorithms and tables that are not
    transcribed here. *)
Class Engine : Type := {
  (** [Number::toString(x)] for a finite [x] that is not an integer below
      2^53 in magnitude: the shortest decimal that reads back as [x], in
      fixed or in exponent notation. *)
  shortestDecimal : Number → string;
  (** [String.prototype.toUpperCase] on a string that holds a character
      outside ASCII: the case mappings of the Unicode character database. *)
  unicodeUpperCase : string → string
}.

(** An engine for the witnesses, which are closed statements.  The amounts
    of their inputs are ASCII strings, for which neither function is
    consulted. *)
Definition asciiEngine : Engine :=
  {| shortestDecimal := fun _ => ""; unicodeUpperCase := fun s => s |}.

Section Conversions.

Context {engine : Engine}.

(** The integer that [x] is, when [x] is an integer below 2^53 in magnitude:
    such an [x] is m × 2^e with e ≤ 0 and 2^-e dividing m. *)
Definition Number_integer (x : Number) : option Z :=
  match Number_value x with
  | S754_zero _ => Some 0%Z
  | S754_finite negative m e =>
      let magnitude := (Z.pos m / 2 ^ (- e))%Z in
      if (e <=? 0)%Z && (Z.pos m mod 2 ^ (- e) =? 0)%Z
      then Some (if negative then (- magnitude)%Z else magnitude)
      else None
  | _ => None
  end.

(** [Number::toString(x)]: both zeros print as "0", an integer below 2^53 in
    magnitude prints its decimal digits. *)
Definition Number_toString (x : Number) : string :=
  match Number_value x with
  | S754_nan => "NaN"
  | S754_infinity negative => if negative then "-Infinity" else "Infinity"
  | _ =>
      match Number_integer x with
      | Some n => NilZero.string_of_int (Z.to_int n)
      | None => shortestDecimal x
      end
  end.

(** [String(v)]. *)
Definition ToString (v : JsValue) : string :=
  match v with
  | JsUndefined => "undefined"
  | JsNull => "null"
  | JsBoolean true => "true"
  | JsBoolean false => "false"
  | JsNumber x => Number_toString x
  | JsString s => s
  end.

(** The characters of ASCII, and the strings made of them. *)
Definition isASCII (c : ascii) : bool := (nat_of_ascii c <? 128)%nat.

Fixpoint allASCII (s : string) : bool :=
  match s with
  | EmptyString => true
  | String c rest => isASCII c && allASCII rest
  end.

(** Upper case within ASCII: the letters a-z move to A-Z. *)
Definition upper_ascii (c : ascii) : ascii :=
  let n := nat_of_ascii c in
  if (97 <=? n)%nat && (n <=? 122)%nat then ascii_of_nat (n - 32) else c.

Fixpoint toUpperCaseASCII (s : string) : string :=
  match s with
  | EmptyString => EmptyString
  | String c rest => String (upper_ascii c) (toUpperCaseASCII rest)
  end.

(** [String.prototype.toUpperCase]. *)
Definition toUpperCase (s : string) : string :=
  if allASCII s then toUpperCaseASCII s else unicodeUpperCase s.

(** [s.includes(search)]: [search] occurs in [s] at some position. *)
Fixpoint includes (s search : string) : bool :=
  String.prefix search s ||
  match s with
  | EmptyString => false
  | String _ rest => includes rest search
  end.

(** ** normalizeAmount (lines 15-36) *)

Definition MAX_UINT256 : string :=
  "115792089237316195423570985008687907853269984665640564039457584007913129639935".

Definition normalizeAmount (amount : JsValue) : string :=
  match amount with
  | JsNull | JsUndefined => "unlimited"
  | _ =>
      let amountStr := toUpperCase (ToString amount) in
      if String.eqb amountStr "MAX_UINT"
         || String.eqb amountStr "UNLIMITED"
         || includes amountStr MAX_UINT256
      then "unlimited"
      else if String.eqb amountStr "0" then "0"
      else ToString amount
  end.

End Conversions.

(** ** Exceptions *)

(** Every failure of the builder is a [throw new Error(message)]; the only
    other exception the code can raise is the [TypeError] of calling a
    property that is not a function. *)
Inductive Exception : Type :=
  | Error (message : string)
  | TypeError (message : string).

Inductive Result (A : Type) : Type :=
  | Ok (a : A)
  | Throw (e : Exception).
Arguments Ok {A} a.
Arguments Throw {A} e.

#[global] Instance Result_ret : MRet Result := @Ok.
#[global] Instance Result_bind : MBind Result := fun A B f r =>
  match r with
  | Ok a => f a
  | Throw e => Throw e
  end.

(** The four error conditions, named as the specification names them, with
    the message the source gives each. *)
Definition InvalidInputError : Exception :=
  Error "Input must be an array of events".
Definition MissingFieldError (field : string) : Exception :=
  Error ("Event missing required field: " +:+ field).
Definition NoEventsError : Exception :=
  Error "No events provided".
Definition MultipleWalletsError : Exception :=
  Error "Multiple wallets detected. Use buildAuthorityGraph() for batch processing.".

(** ** Events and edges *)

(** A field of an input event: missing, [null], or holding a value of the
    type the data model gives it. *)
Inductive Field (A : Type) : Type :=
  | absent
  | null
  | value (a : A).
Arguments absent {A}.
Arguments null {A}.
Arguments value {A} a.

#[global] Instance Field_eq_dec {A} `{EqDecision A} : EqDecision (Field A).
Proof. solve_decision. Defined.

Module Event.
Record t : Type := mk {
  wallet : Field string;
  contract : Field string;
  authority_type : Field string;
  target_entity : Field string;
  amount : JsValue;
  block : Field Z;
  timestamp : Field Z;
  tx_hash : Field string;
  log_index : Field Z
}.

End Event.

Module Edge.
Record t : Type := mk {
  type : string;
  contract : string;
  target_entity : string;
  amount : string;
  block : Z;
  timestamp : Z;
  revocation_possible : string;
  tx_hash : option string;
  log_index : option Z
}.

End Edge.

#[global] Instance Edge_eq_dec : EqDecision Edge.t.
Proof. solve_decision. Defined.

Section Program.

Context {engine : Engine}.

Record WalletGraph : Type := {
  wallet : string;
  authority_edges : list Edge.t
}.

(** The argument of [buildAuthorityGraph]: an array of events, or something
    that [Array.isArray] rejects. *)
Inductive JsInput : Type :=
  | NotArray (v : JsValue)
  | ArrayOf (events : list Event.t).

Definition isArray (input : JsInput) : bool :=
  match input with
  | ArrayOf _ => true
  | NotArray _ => false
  end.

(** Truthiness of a string-valued field: [!f] holds when the field is
    missing, [null] or the empty string. *)
Definition truthy (f : Field string) : option string :=
  match f with
  | value s => if String.eqb s "" then None else Some s
  | _ => None
  end.

(** [f !== null && f !== undefined]. *)
Definition defined {A : Type} (f : Field A) : option A :=
  match f with
  | value a => Some a
  | _ => None
  end.

Definition require {A : Type} (o : option A) (field : string) : Result A :=
  match o with
  | Some a => Ok a
  | None => Throw (MissingFieldError field)
  end.

(** The validation of one event and the edge built from it (lines 57-100),
    returned with the wallet the edge is filed under. *)
Definition buildEdge (event : Event.t) : Result (string * Edge.t) :=
  wallet ← require (truthy (Event.wallet event)) "wallet";
  contract ← require (truthy (Event.contract event)) "contract";
  authority_type ← require (truthy (Event.authority_type event)) "authority_type";
  target_entity ← require (truthy (Event.target_entity event)) "target_entity";
  block ← require (defined (Event.block event)) "block";
  timestamp ← require (defined (Event.timestamp event)) "timestamp";
  Ok (wallet,
      {| Edge.type := authority_type;
         Edge.contract := contract;
         Edge.target_entity := target_entity;
         Edge.amount := normalizeAmount (Event.amount event);
         Edge.block := block;
         Edge.timestamp := timestamp;
         Edge.revocation_possible := "UNKNOWN";
         Edge.tx_hash := truthy (Event.tx_hash event);
         Edge.log_index := defined (Event.log_index event) |}).

(** ** The wallet dictionary *)

(** [walletGroups] is a plain object literal, so a lookup that finds no own
    property continues in [Object.prototype].  These are the names it finds
    there; each holds a function (or, for [__proto__], the prototype object
    itself), hence a truthy value without a [push] method. *)
Definition Object_prototype_names : list string :=
  [ "constructor"; "__defineGetter__"; "__defineSetter__"; "hasOwnProperty";
    "__lookupGetter__"; "__lookupSetter__"; "isPrototypeOf";
    "propertyIsEnumerable"; "toString"; "valueOf"; "__proto__";
    "toLocaleString" ].

Definition inherited (name : string) : bool :=
  existsb (String.eqb name) Object_prototype_names.

(** Lines 79-81 and 102: create the wallet's array when the lookup is falsy,
    then push the edge onto whatever the lookup yields. *)
Definition pushEdge (walletGroups : gmap string (list Edge.t))
    (wallet : string) (edge : Edge.t) : Result (gmap string (list Edge.t)) :=
  match walletGroups !! wallet with
  | Some edges => Ok (<[wallet := (edges ++ [edge])%list]> walletGroups)
  | None =>
      if inherited wallet
      then Throw (TypeError "walletGroups[wallet].push is not a function")
      else Ok (<[wallet := [edge]]> walletGroups)
  end.

(** The loop of lines 56-103, threading [walletGroups] through the events. *)
Fixpoint groupEvents (events : list Event.t)
    (walletGroups : gmap string (list Edge.t))
    : Result (gmap string (list Edge.t)) :=
  match events with
  | [] => Ok walletGroups
  | event :: rest =>
      '(wallet, edge) ← buildEdge event;
      walletGroups ← pushEdge walletGroups wallet edge;
      groupEvents rest walletGroups
  end.

(** ** Array.prototype.sort *)

(** ECMAScript leaves the sequence of calls to [comparefn] to the engine,
    and the resulting order as well unless [comparefn] is a consistent
    comparison function.  The comparison function of the builder is not
    consistent on every input: it is not transitive once edges of one block
    differ in carrying a [tx_hash].  The model is the in-place insertion
    sort: each element in turn moves left past every element [tmp] with
    [comparefn(tmp, element) > 0]. *)

Section ArraySort.

Context {A : Type} (comparefn : A → A → Z).

(** [sorted] is the sorted prefix, last element first. *)
Fixpoint shift_in (element : A) (sorted : list A) : list A :=
  match sorted with
  | [] => [element]
  | tmp :: rest =>
      if (0 <? comparefn tmp element)%Z
      then tmp :: shift_in element rest
      else element :: sorted
  end.

Definition Array_sort (array : list A) : list A :=
  reverse (fold_left (fun sorted element => shift_in element sorted) array []).

End ArraySort.

(** [Object.keys]. *)
Definition Object_keys {V : Type} (o : gmap string V) : list string :=
  (map_to_list o).*1.

(** ** The builder *)

Section Builder.

(** [String.prototype.localeCompare] depends on the host's collation; the
    builder is parametric in it. *)
Variable localeCompare : string → string → Z.

(** Lines 114-117. *)
Definition compareTxHash (a b : Edge.t) : option Z :=
  match Edge.tx_hash a, Edge.tx_hash b with
  | Some ta, Some tb =>
      if negb (String.eqb ta "") && negb (String.eqb tb "")
         && negb (String.eqb ta tb)
      then Some (localeCompare ta tb)
      else None
  | _, _ => None
  end.

(** Lines 119-122. *)
Definition compareLogIndex (a b : Edge.t) : option Z :=
  match Edge.log_index a, Edge.log_index b with
  | Some ia, Some ib => Some (ia - ib)%Z
  | _, _ => None
  end.

(** The comparison function of lines 108-126. *)
Definition compareEdges (a b : Edge.t) : Z :=
  if negb (Edge.block a =? Edge.block b)%Z
  then (Edge.block a - Edge.block b)%Z
  else
    match compareTxHash a b with
    | Some order => order
    | None =>
        match compareLogIndex a b with
        | Some order => order
        | None => (Edge.timestamp a - Edge.timestamp b)%Z
        end
    end.

(** Lines 130-137. *)
Definition buildResults (walletGroups : gmap string (list Edge.t))
    : gmap string WalletGraph :=
  map_imap (fun wallet edges =>
              Some {| wallet := wallet; authority_edges := edges |})
           walletGroups.

Definition buildAuthorityGraph (events : JsInput)
    : Result (gmap string WalletGraph) :=
  match events with
  | NotArray _ => Throw InvalidInputError
  | ArrayOf events =>
      if (length events =? 0)%nat then Ok ∅
      else
        walletGroups ← groupEvents events ∅;
        Ok (buildResults (Array_sort compareEdges <$> walletGroups))
  end.

(** Lines 147-160.  The result is the property lookup
    [graphs[wallets[0]]]. *)
Definition buildSingleWalletGraph (events : JsInput)
    : Result (option WalletGraph) :=
  graphs ← buildAuthorityGraph events;
  match Object_keys graphs with
  | [] => Throw NoEventsError
  | [wallet] => Ok (graphs !! wallet)
  | _ :: _ :: _ => Throw MultipleWalletsError
  end.

End Builder.

(** ** The tree view (visualize-graph-ascii.js) *)

(** The statistics that [visualizeGraphTree] gathers at lines 60-75 and
    prints at lines 80-83; the two [Set]s are finite sets of strings. *)
Record TreeStats : Type := {
  totalWallets : nat;
  totalEdges : nat;
  totalContracts : gset string;
  totalTargets : gset string
}.

(** Lines 71-74. *)
Definition countEdge (stats : TreeStats) (edge : Edge.t) : TreeStats :=
  {| totalWallets := totalWallets stats;
     totalEdges := totalEdges stats;
     totalContracts := {[ Edge.contract edge ]} ∪ totalContracts stats;
     totalTargets := {[ Edge.target_entity edge ]} ∪ totalTargets stats |}.

(** Lines 67-75, for one entry of [Object.entries(authorityData)]. *)
Definition countWallet (stats : TreeStats) (entry : string * WalletGraph)
    : TreeStats :=
  let walletData := entry.2 in
  foldl countEdge
    {| totalWallets := S (totalWallets stats);
       totalEdges := totalEdges stats + length (authority_edges walletData);
       totalContracts := totalContracts stats;
       totalTargets := totalTargets stats |}
    (authority_edges walletData).

Definition treeStatistics (authorityData : gmap string WalletGraph)
    : TreeStats :=
  foldl countWallet
    {| totalWallets := 0; totalEdges := 0;
       totalContracts := ∅; totalTargets := ∅ |}
    (map_to_list authorityData).

(** ** The test helper (test-authority-graph-builder.js) *)

(** [e.message]. *)
Definition Exception_message (e : Exception) : string :=
  match e with
  | Error message => message
  | TypeError message => message
  end.

(** [assertThrows] (lines 19-29).  [fn] is the outcome of calling the
    function under test; the result is the line written to the console. *)
Definition assertThrows {A : Type} (fn : Result A) (message : string)
    : Result string :=
  let e :=
    match fn with
    | Ok _ => Error (message +:+ " - Expected error but none was thrown")
    | Throw e => e
    end in
  if includes (Exception_message e) "Expected error" then Throw e
  else Ok ("✓ " +:+ message).

(** * The vocabulary of the specification *)

(** ** Amounts *)

(** [search] occurs in [s]: the words of the amount rule. *)
Definition substring_of (search s : string) : Prop :=
  ∃ before after, s = before +:+ search +:+ after.

(** The condition of the rule's second step, on the upper-case string form. *)
Definition denotes_unlimited (upper : string) : Prop :=
  upper = "MAX_UINT" ∨ upper = "UNLIMITED" ∨ substring_of MAX_UINT256 upper.

(** [c] and [d] are one character, or one ASCII letter in its two cases. *)
Definition sameLetter (c d : ascii) : Prop :=
  c = d
  ∨ ∃ k, (k < 26)%nat
         ∧ (nat_of_ascii c = 97 + k ∧ nat_of_ascii d = 65 + k
            ∨ nat_of_ascii c = 65 + k ∧ nat_of_ascii d = 97 + k)%nat.

(** [s] is [t] up to the case of the ASCII letters. *)
Fixpoint equalUpToCase (s t : string) : Prop :=
  match s, t with
  | EmptyString, EmptyString => True
  | String c s, String d t => sameLetter c d ∧ equalUpToCase s t
  | _, _ => False
  end.

(** The condition of the rule's second step, on an ASCII string itself:
    it spells MAX_UINT or UNLIMITED, in any case of the letters, or holds the
    decimal 2^256 - 1. *)
Definition spellsUnlimited (s : string) : Prop :=
  equalUpToCase s "MAX_UINT" ∨ equalUpToCase s "UNLIMITED"
  ∨ substring_of MAX_UINT256 s.

(** The decimal digits, and the strings made of them. *)
Definition isDigit (c : ascii) : bool :=
  (48 <=? nat_of_ascii c)%nat && (nat_of_ascii c <=? 57)%nat.

Fixpoint allDigits (s : string) : bool :=
  match s with
  | EmptyString => true
  | String c rest => isDigit c && allDigits rest
  end.

(** Lines 20-35, as a function of the string form. *)
Definition normalizeString (str : string) : string :=
  if String.eqb (toUpperCase str) "MAX_UINT"
     || String.eqb (toUpperCase str) "UNLIMITED"
     || includes (toUpperCase str) MAX_UINT256
  then "unlimited"
  else if String.eqb (toUpperCase str) "0" then "0"
  else str.

(** ** Sorted sequences *)

(** [a] may stand before [b]: the comparison function does not place it
    strictly after. *)
Definition ordered {A : Type} (comparefn : A → A → Z) (a b : A) : Prop :=
  (comparefn a b ≤ 0)%Z.

(** The composite key as the specification words it: a chain of four steps,
    each breaking only the ties the previous ones leave. *)
Definition tieBreak (step : option Z) (next : Z) : Z :=
  match step with
  | Some order => if (order =? 0)%Z then next else order
  | None => next
  end.

Definition claimedCompare (localeCompare : string → string → Z)
    (a b : Edge.t) : Z :=
  tieBreak (Some (Edge.block a - Edge.block b)%Z)
    (tieBreak
       (match Edge.tx_hash a, Edge.tx_hash b with
        | Some ta, Some tb =>
            if negb (String.eqb ta "") && negb (String.eqb tb "")
            then Some (localeCompare ta tb)
            else None
        | _, _ => None
        end)
       (tieBreak
          (match Edge.log_index a, Edge.log_index b with
           | Some ia, Some ib => Some (ia - ib)%Z
           | _, _ => None
           end)
          (Edge.timestamp a - Edge.timestamp b)%Z)).

(** Code-unit order, the collation of strings that hold ASCII characters of
    one case. *)
Definition codeUnitCompare (a b : string) : Z :=
  match String.compare a b with
  | Lt => (-1)%Z
  | Eq => 0%Z
  | Gt => 1%Z
  end.

(** ** Events and their edges *)

(** A field that is missing, [null] or the empty string. *)
Definition empty_or_missing (f : Field string) : Prop :=
  f = absent ∨ f = null ∨ f = value "".

(** A field that is missing or [null]; 0 is a value. *)
Definition missing_or_null {A : Type} (f : Field A) : Prop :=
  f = absent ∨ f = null.

(** [event] violates the requirement on the field named [field]. *)
Definition offending (field : string) (event : Event.t) : Prop :=
  field = "wallet" ∧ empty_or_missing (Event.wallet event)
  ∨ field = "contract" ∧ empty_or_missing (Event.contract event)
  ∨ field = "authority_type" ∧ empty_or_missing (Event.authority_type event)
  ∨ field = "target_entity" ∧ empty_or_missing (Event.target_entity event)
  ∨ field = "block" ∧ missing_or_null (Event.block event)
  ∨ field = "timestamp" ∧ missing_or_null (Event.timestamp event).

Definition malformed (event : Event.t) : Prop :=
  ∃ field, offending field event.

(** The wallet field of [event] equals [wallet]. *)
Definition hasWallet (wallet : string) (event : Event.t) : Prop :=
  Event.wallet event = value wallet.

#[global] Instance hasWallet_dec wallet event : Decision (hasWallet wallet event).
Proof. unfold hasWallet. apply _. Defined.

(** The amount of [event] is an ASCII string. *)
Definition asciiAmount (event : Event.t) : Prop :=
  ∃ s, Event.amount event = JsString s ∧ allASCII s = true.

(** [event] passes validation. *)
Definition buildsEdge (event : Event.t) : Prop :=
  ∃ wallet edge, buildEdge event = Ok (wallet, edge).

(** The edge built from [event], when it is filed under [wallet]. *)
Definition edgeFor (wallet : string) (event : Event.t) : option Edge.t :=
  match buildEdge event with
  | Ok (wallet', edge) => if decide (wallet' = wallet) then Some edge else None
  | Throw _ => None
  end.

(** The edges built from the events of [wallet], in input order. *)
Definition edgesOf (wallet : string) (events : list Event.t) : list Edge.t :=
  omap (edgeFor wallet) events.

(** All the edges held by the dictionary, and by the output. *)
Definition allEdges (walletGroups : gmap string (list Edge.t)) : list Edge.t :=
  mjoin (map_to_list walletGroups).*2.

Definition graphEdges (graphs : gmap string WalletGraph) : list Edge.t :=
  mjoin (authority_edges <$> (map_to_list graphs).*2).

(** The edges built from all the events, in input order. *)
Definition builtEdges (events : list Event.t) : list Edge.t :=
  omap (fun event =>
          match buildEdge event with
          | Ok (_, edge) => Some edge
          | Throw _ => None
          end) events.

(** No wallet of [events] is the name of an inherited property. *)
Definition ownWallets (events : list Event.t) : Prop :=
  ∀ event key,
    event ∈ events → Event.wallet event = value key → inherited key = false.

(** The event with its [tx_hash] field removed. *)
Definition withoutTxHash (event : Event.t) : Event.t :=
  {| Event.wallet := Event.wallet event;
     Event.contract := Event.contract event;
     Event.authority_type := Event.authority_type event;
     Event.target_entity := Event.target_entity event;
     Event.amount := Event.amount event;
     Event.block := Event.block event;
     Event.timestamp := Event.timestamp event;
     Event.tx_hash := absent;
     Event.log_index := Event.log_index event |}.

(** The event with an empty-string [tx_hash] removed. *)
Definition dropEmptyTxHash (event : Event.t) : Event.t :=
  if decide (Event.tx_hash event = value "") then withoutTxHash event
  else event.

(** ** Example inputs *)

(** A token approval, for the examples. *)
Definition approval (wallet : string) (block timestamp : Z)
    (tx_hash : Field string) (log_index : Field Z) : Event.t :=
  {| Event.wallet := value wallet;
     Event.contract := value "0xTOKEN";
     Event.authority_type := value "token_approval";
     Event.target_entity := value "0xDEX";
     Event.amount := JsString "MAX_UINT";
     Event.block := value block;
     Event.timestamp := value timestamp;
     Event.tx_hash := tx_hash;
     Event.log_index := log_index |}.

(** Two wallets; the second event supplies an empty [tx_hash], the third a
    [log_index] of 0. *)
Definition sample_events : list Event.t :=
  [ approval "0xABC" 100 1712345678 (value "0xTX2") (value 1%Z);
    approval "0xDEF" 101 1712345680 (value "") absent;
    approval "0xABC" 100 1712345678 (value "0xTX1") (value 0%Z);
    approval "0xABC" 100 1712345678 (value "0xTX1") (value 2%Z) ].

(** Two events of one log position whose timestamps decrease. *)
Definition tied_events : list Event.t :=
  [ approval "0xABC" 100 20 (value "0xTX1") (value 0%Z);
    approval "0xABC" 100 10 (value "0xTX1") (value 0%Z) ].

(** Three events of one block and one timestamp; only the outer two carry a
    [tx_hash]. *)
Definition interleaved_events : list Event.t :=
  [ approval "0xABC" 100 1712345678 (value "0xTXB") absent;
    approval "0xABC" 100 1712345678 absent absent;
    approval "0xABC" 100 1712345678 (value "0xTXA") absent ].

(** An event that lacks its wallet, after one whose wallet names a property
    of [Object.prototype]. *)
Definition masked_events : list Event.t :=
  [ approval "constructor" 100 1712345678 absent absent;
    {| Event.wallet := absent;
       Event.contract := value "0xTOKEN";
       Event.authority_type := value "token_approval";
       Event.target_entity := value "0xDEX";
       Event.amount := JsString "100";
       Event.block := value 101%Z;
       Event.timestamp := value 1712345680%Z;
       Event.tx_hash := absent;
       Event.log_index := absent |} ].

(** * Further vocabulary *)

(** The required fields, in the order lines 58-75 test them. *)
Definition requiredFields : list string :=
  [ "wallet"; "contract"; "authority_type"; "target_entity"; "block";
    "timestamp" ].

(** An event that the loop files: it is complete and its wallet is not the
    name of an inherited property. *)
Definition filed (event : Event.t) : Prop :=
  ¬ malformed event
  ∧ ∀ key, Event.wallet event = value key → inherited key = false.

(** The event with its [null] optional fields removed. *)
Definition dropNullOptionals (event : Event.t) : Event.t :=
  {| Event.wallet := Event.wallet event;
     Event.contract := Event.contract event;
     Event.authority_type := Event.authority_type event;
     Event.target_entity := Event.target_entity event;
     Event.amount := Event.amount event;
     Event.block := Event.block event;
     Event.timestamp := Event.timestamp event;
     Event.tx_hash :=
       match Event.tx_hash event with
       | null => absent
       | field => field
       end;
     Event.log_index :=
       match Event.log_index event with
       | null => absent
       | field => field
       end |}.

(** The exceptions of [buildAuthorityGraph] on an array. *)
Definition loopExceptions : list Exception :=
  TypeError "walletGroups[wallet].push is not a function"
  :: (MissingFieldError <$> requiredFields).

(** The strings held by a field of the events. *)
Definition fieldValues (field : Event.t → Field string)
    (events : list Event.t) : list string :=
  omap (fun event => defined (field event)) events.

(** ** Further example inputs *)

(** Two wallets, in the order of their blocks; the last event carries
    [null] optional fields. *)
Definition ordered_events : list Event.t :=
  [ approval "0xABC" 100 1712345678 (value "0xTX1") (value 0%Z);
    approval "0xDEF" 101 1712345680 absent absent;
    approval "0xABC" 102 1712345690 null null ].

(** An approval without block and timestamp. *)
Definition undated_event : Event.t :=
  {| Event.wallet := value "0xABC";
     Event.contract := value "0xTOKEN";
     Event.authority_type := value "token_approval";
     Event.target_entity := value "0xDEX";
     Event.amount := JsString "100";
     Event.block := absent;
     Event.timestamp := absent;
     Event.tx_hash := absent;
     Event.log_index := absent |}.

(** * Properties *)

(** ** Strings *)

Lemma prefix_true_iff (p s : string) :
  String.prefix p s = true ↔ ∃ after, s = p +:+ after.
Proof.
  revert s. induction p as [|c p IH]; intros s.
  - split; [intros _; exists s; reflexivity | by destruct s].
  - destruct s as [|d s]; simpl.
    + split; [done | intros [after H]; discriminate H].
    + destruct (Ascii.ascii_dec c d) as [->|Hne].
      * rewrite IH. split; intros [after H]; exists after.
        -- by rewrite H.
        -- by injection H.
      * split; [done | intros [after H]]. injection H as Hc _. by destruct Hne.
Qed.

Lemma includes_empty (search : string) :
  includes "" search = String.prefix search "".
Proof. simpl. apply orb_false_r. Qed.

Lemma includes_String (c : ascii) (s search : string) :
  includes (String c s) search
  = String.prefix search (String c s) || includes s search.
Proof. reflexivity. Qed.

Lemma includes_true_iff (s search : string) :
  includes s search = true ↔ substring_of search s.
Proof.
  unfold substring_of. induction s as [|c s IH].
  - rewrite includes_empty, prefix_true_iff. split.
    + intros [after H]. by exists "", after.
    + intros [before [after H]].
      destruct before; [by exists after | discriminate H].
  - rewrite includes_String, orb_true_iff, prefix_true_iff, IH. split.
    + intros [[after H] | [before [after H]]].
      * by exists "", after.
      * exists (String c before), after. simpl. by rewrite H.
    + intros [before [after H]]. destruct before as [|d before]; simpl in H.
      * left. by exists after.
      * right. injection H as _ H. by exists before, after.
Qed.

Lemma upper_ascii_zero (c : ascii) : upper_ascii c = "0"%char → c = "0"%char.
Proof.
  destruct c as [[] [] [] [] [] [] [] []]; vm_compute; congruence.
Qed.

Lemma toUpperCaseASCII_zero (s : string) :
  toUpperCaseASCII s = "0" ↔ s = "0".
Proof.
  split; [|by intros ->].
  destruct s as [|c [|d s]]; simpl; try discriminate.
  intros H. injection H as H. by rewrite (upper_ascii_zero c H).
Qed.

Lemma toUpperCase_ASCII (s : string) :
  allASCII s = true → toUpperCase s = toUpperCaseASCII s.
Proof. intros Hs. unfold toUpperCase. by rewrite Hs. Qed.

Lemma toUpperCaseASCII_app (s t : string) :
  toUpperCaseASCII (s +:+ t) = toUpperCaseASCII s +:+ toUpperCaseASCII t.
Proof.
  induction s as [|c s IH]; [done|].
  exact (f_equal (String (upper_ascii c)) IH).
Qed.

(** A string that upper-cases to a concatenation splits the same way. *)
Lemma toUpperCaseASCII_split (s before after : string) :
  toUpperCaseASCII s = before +:+ after →
  ∃ s1 s2,
    s = s1 +:+ s2
    ∧ toUpperCaseASCII s1 = before ∧ toUpperCaseASCII s2 = after.
Proof.
  revert s. induction before as [|c before IH]; intros s Hs.
  - by exists "", s.
  - destruct s as [|d s]; [discriminate Hs|].
    injection Hs as Hd Hs.
    destruct (IH s Hs) as (s1 & s2 & -> & H1 & H2).
    exists (String d s1), s2. simpl. by rewrite Hd, H1, H2.
Qed.

Lemma sameLetter_sym (c d : ascii) : sameLetter c d → sameLetter d c.
Proof.
  intros [->|(k & Hk & [[Hc Hd]|[Hc Hd]])]; [by left|right; exists k; tauto..].
Qed.

Lemma upper_ascii_sameLetter (c : ascii) : sameLetter c (upper_ascii c).
Proof.
  unfold upper_ascii.
  destruct ((97 <=? nat_of_ascii c)%nat && (nat_of_ascii c <=? 122)%nat)
    eqn:Hlower; [|by left].
  apply andb_true_iff in Hlower as [Hlo%Nat.leb_le Hhi%Nat.leb_le].
  right. exists (nat_of_ascii c - 97)%nat. split; [lia|]. left.
  rewrite nat_ascii_embedding by lia. lia.
Qed.

Lemma sameLetter_upper_ascii (c d : ascii) :
  sameLetter c d → upper_ascii c = upper_ascii d.
Proof.
  assert (Hlower : ∀ lower upper k,
    (k < 26)%nat → nat_of_ascii lower = (97 + k)%nat →
    nat_of_ascii upper = (65 + k)%nat →
    upper_ascii lower = upper_ascii upper).
  { intros lower upper k Hk Hlower Hupper. unfold upper_ascii.
    rewrite Hlower, Hupper.
    replace ((97 <=? 97 + k)%nat && (97 + k <=? 122)%nat) with true
      by (symmetry; apply andb_true_iff; split; apply Nat.leb_le; lia).
    replace ((97 <=? 65 + k)%nat && (65 + k <=? 122)%nat) with false
      by (symmetry; apply andb_false_iff; left; apply Nat.leb_gt; lia).
    replace (97 + k - 32)%nat with (65 + k)%nat by lia.
    by rewrite <-Hupper, ascii_nat_embedding. }
  intros [->|(k & Hk & [[Hc Hd]|[Hc Hd]])]; [done|by eapply Hlower|].
  symmetry. by eapply Hlower.
Qed.

Lemma sameLetter_trans (c d e : ascii) :
  sameLetter c d → sameLetter d e → sameLetter c e.
Proof.
  intros [->|(k & Hk & Hcd)]; [done|].
  intros [<-|(k' & Hk' & Hde)]; [right; by exists k|].
  destruct Hcd as [[Hc Hd]|[Hc Hd]], Hde as [[Hd' He]|[Hd' He]];
    first [ exfalso; lia
          | left; rewrite <-(ascii_nat_embedding c), <-(ascii_nat_embedding e);
            f_equal; lia ].
Qed.

Lemma equalUpToCase_toUpperCaseASCII (s t : string) :
  equalUpToCase s t ↔ toUpperCaseASCII s = toUpperCaseASCII t.
Proof.
  revert t. induction s as [|c s IH]; intros [|d t]; simpl; try done.
  rewrite IH. split.
  - intros [Hc ->]. by rewrite (sameLetter_upper_ascii c d Hc).
  - intros [= Hc Hs]. split; [|done].
    apply (sameLetter_trans c (upper_ascii c)); [apply upper_ascii_sameLetter|].
    rewrite Hc. apply sameLetter_sym, upper_ascii_sameLetter.
Qed.

Lemma upper_ascii_isDigit (c d : ascii) :
  isDigit d = true → upper_ascii c = d → c = d.
Proof.
  intros [Hlo%Nat.leb_le Hhi%Nat.leb_le]%andb_true_iff <-.
  destruct (upper_ascii_sameLetter c) as [Hfix|(k & Hk & [[_ Hu]|[Hcode Hu]])];
    [done | exfalso; lia |].
  unfold upper_ascii in *. rewrite Hcode in *.
  replace ((97 <=? 65 + k)%nat && (65 + k <=? 122)%nat) with false in *
    by (symmetry; apply andb_false_iff; left; apply Nat.leb_gt; lia).
  done.
Qed.

Lemma toUpperCaseASCII_allDigits (s digits : string) :
  allDigits digits = true → toUpperCaseASCII s = digits → s = digits.
Proof.
  revert digits. induction s as [|c s IH]; intros [|d digits]; simpl;
    try done.
  intros [Hd Hdigits]%andb_true_iff [= Hc Hs].
  by rewrite (upper_ascii_isDigit c d Hd Hc), (IH digits Hdigits Hs).
Qed.

Lemma upper_ascii_digit (c : ascii) : isDigit c = true → upper_ascii c = c.
Proof.
  intros [_ Hhi%Nat.leb_le]%andb_true_iff. unfold upper_ascii.
  replace ((97 <=? nat_of_ascii c)%nat && (nat_of_ascii c <=? 122)%nat)
    with false; [done|].
  symmetry. apply andb_false_iff. left. apply Nat.leb_gt. lia.
Qed.

Lemma toUpperCaseASCII_digits (digits : string) :
  allDigits digits = true → toUpperCaseASCII digits = digits.
Proof.
  induction digits as [|d digits IH]; [done|]. simpl.
  intros [Hd Hdigits]%andb_true_iff.
  by rewrite (upper_ascii_digit d Hd), (IH Hdigits).
Qed.

(** Upper-casing neither makes nor breaks a run of digits. *)
Lemma substring_of_toUpperCaseASCII (digits s : string) :
  allDigits digits = true →
  substring_of digits (toUpperCaseASCII s) ↔ substring_of digits s.
Proof.
  intros Hdigits. split.
  - intros (before & after & Hs).
    apply toUpperCaseASCII_split in Hs as (s1 & rest & -> & H1 & Hrest).
    apply toUpperCaseASCII_split in Hrest as (s2 & s3 & -> & H2 & H3).
    exists s1, s3. by rewrite (toUpperCaseASCII_allDigits s2 digits Hdigits H2).
  - intros (before & after & ->).
    exists (toUpperCaseASCII before), (toUpperCaseASCII after).
    by rewrite !toUpperCaseASCII_app, (toUpperCaseASCII_digits digits Hdigits).
Qed.

Lemma denotes_unlimited_ASCII (s : string) :
  denotes_unlimited (toUpperCaseASCII s) ↔ spellsUnlimited s.
Proof.
  unfold denotes_unlimited, spellsUnlimited.
  rewrite !equalUpToCase_toUpperCaseASCII.
  by rewrite (substring_of_toUpperCaseASCII MAX_UINT256 s).
Qed.

Lemma String_eqb_true (a b : string) : String.eqb a b = true ↔ a = b.
Proof. apply String.eqb_eq. Qed.

Lemma String_eqb_false (a b : string) : String.eqb a b = false ↔ a ≠ b.
Proof. apply String.eqb_neq. Qed.

(** ** normalizeAmount *)

Lemma unlimited_test (upper : string) :
  String.eqb upper "MAX_UINT" || String.eqb upper "UNLIMITED"
    || includes upper MAX_UINT256 = true
  ↔ denotes_unlimited upper.
Proof.
  unfold denotes_unlimited.
  rewrite !orb_true_iff, !String_eqb_true, includes_true_iff. tauto.
Qed.

Lemma normalizeAmount_defined (raw : JsValue) :
  raw ≠ JsNull → raw ≠ JsUndefined →
  normalizeAmount raw = normalizeString (ToString raw).
Proof. by destruct raw. Qed.

Lemma normalizeString_idempotent (str : string) :
  normalizeString (normalizeString str) = normalizeString str.
Proof.
  unfold normalizeString at 2 3.
  destruct (_ || _ || includes _ _) eqn:Htest; [reflexivity|].
  destruct (String.eqb (toUpperCase str) "0") eqn:Hzero; [reflexivity|].
  unfold normalizeString. by rewrite Htest, Hzero.
Qed.

(** The rule on an ASCII string, without the detour through upper case. *)
Lemma normalizeAmount_ASCII (s : string) :
  allASCII s = true →
  (spellsUnlimited s → normalizeAmount (JsString s) = "unlimited")
  ∧ (¬ spellsUnlimited s → normalizeAmount (JsString s) = s).
Proof.
  intros Hs. rewrite normalizeAmount_defined by done. simpl ToString.
  unfold normalizeString. rewrite (toUpperCase_ASCII s Hs).
  rewrite <-denotes_unlimited_ASCII, <-unlimited_test.
  destruct (_ || _ || includes _ _); split; try done.
  intros _. destruct (String.eqb (toUpperCaseASCII s) "0") eqn:Hzero; [|done].
  apply String_eqb_true in Hzero.
  by apply (proj1 (toUpperCaseASCII_zero s)) in Hzero as ->.
Qed.

(** The digits of an integer below 2^53 in magnitude read back as it. *)
Lemma Number_toString_integer (x : Number) (n : Z) :
  Number_integer x = Some n →
  Z.of_int <$> NilZero.int_of_string (Number_toString x) = Some n.
Proof.
  intros Hn. unfold Number_toString.
  assert (Hprint :
    Z.of_int <$> NilZero.int_of_string (NilZero.string_of_int (Z.to_int n))
    = Some n).
  { rewrite NilZero.isi.
    - simpl. by rewrite DecimalZ.of_to.
    - destruct n; [done| |done]. simpl. intros [= Hnil].
      by apply DecimalPos.Unsigned.to_uint_nonnil in Hnil.
    - destruct n; [done|done|]. simpl. intros [= Hnil].
      by apply DecimalPos.Unsigned.to_uint_nonnil in Hnil. }
  rewrite Hn. unfold Number_integer in Hn.
  by destruct (Number_value x).
Qed.

(** The digits of m × 2^e, where that is an integer n. *)
Lemma Number_toString_finite (x : Number) (negative : bool) (m : positive)
    (e n : Z) :
  Number_value x = S754_finite negative m e →
  (e ≤ 0)%Z → Z.pos m = (n * 2 ^ (- e))%Z →
  Z.of_int <$> NilZero.int_of_string (Number_toString x)
  = Some (if negative then (- n)%Z else n).
Proof.
  intros Hx He Hm. apply Number_toString_integer.
  unfold Number_integer. rewrite Hx, Hm.
  assert (0 < 2 ^ (- e))%Z by (apply Z.pow_pos_nonneg; lia).
  rewrite Z.mod_mul, Z.div_mul by lia.
  by rewrite (proj2 (Z.leb_le e 0) He), Z.eqb_refl.
Qed.

(** C2. [normalizeAmount] gives "unlimited" for [null] and [undefined]; for
    any other value it gives "unlimited" when the upper-case string form is
    "MAX_UINT" or "UNLIMITED" or contains the decimal 2^256 - 1, else "0"
    when the string form is "0", else the string form itself.  The string
    form of a string is the string, that of a boolean its name, that of a
    number that is no number "NaN", that of an infinity its name, that of a
    zero "0", and that of a number m × 2^e with e ≤ 0 that is an integer
    reads back as the integer.  On an
    ASCII string the upper-case form differs in the case of the letters
    only, so the rule takes MAX_UINT or UNLIMITED in any case of the
    letters, or a string that holds the decimal, and leaves any other string
    as it is.  Beyond ASCII the upper-case form is the engine's, of which
    the rule needs that it maps no other string to "0". *)
Theorem normalizeAmount_cases
    (toUpperCase_zero : ∀ str, toUpperCase str = "0" → str = "0") :
  (∀ raw,
      (raw = JsNull ∨ raw = JsUndefined → normalizeAmount raw = "unlimited")
      ∧ (raw ≠ JsNull → raw ≠ JsUndefined →
          (denotes_unlimited (toUpperCase (ToString raw)) →
             normalizeAmount raw = "unlimited")
          ∧ (¬ denotes_unlimited (toUpperCase (ToString raw)) →
               (ToString raw = "0" → normalizeAmount raw = "0")
               ∧ normalizeAmount raw = ToString raw)))
  ∧ (∀ s, ToString (JsString s) = s)
  ∧ (∀ s,
        allASCII s = true →
        (spellsUnlimited s → normalizeAmount (JsString s) = "unlimited")
        ∧ (¬ spellsUnlimited s → normalizeAmount (JsString s) = s))
  ∧ (∀ x negative,
        Number_value x = S754_zero negative →
        normalizeAmount (JsNumber x) = "0")
  ∧ (∀ x negative m e n,
        Number_value x = S754_finite negative m e →
        (e ≤ 0)%Z → Z.pos m = (n * 2 ^ (- e))%Z →
        Z.of_int <$> NilZero.int_of_string (ToString (JsNumber x))
        = Some (if negative then (- n)%Z else n))
  ∧ (∀ x, Number_value x = S754_nan → normalizeAmount (JsNumber x) = "NaN")
  ∧ (∀ x negative,
        Number_value x = S754_infinity negative →
        normalizeAmount (JsNumber x)
        = if negative then "-Infinity" else "Infinity")
  ∧ (∀ b, normalizeAmount (JsBoolean b) = if b then "true" else "false").
Proof.
  split; [|split; [|split; [|split; [|split; [|split; [|split]]]]]].
  - intros raw. split; [by intros [-> | ->]|].
    intros Hnull Hundef.
    rewrite (normalizeAmount_defined raw Hnull Hundef).
    unfold normalizeString. split.
    + intros Hu. apply unlimited_test in Hu. by rewrite Hu.
    + intros Hu.
      destruct (_ || _ || includes _ _) eqn:Htest;
        [by apply unlimited_test in Htest|].
      destruct (String.eqb (toUpperCase (ToString raw)) "0") eqn:Hz.
      * apply String_eqb_true, toUpperCase_zero in Hz. by rewrite Hz.
      * apply String_eqb_false in Hz.
        split; [intros H0; by rewrite H0 in Hz | done].
  - done.
  - apply normalizeAmount_ASCII.
  - intros x negative Hx.
    unfold normalizeAmount, ToString, Number_toString, Number_integer.
    by rewrite Hx.
  - intros x negative m e n. apply Number_toString_finite.
  - intros x Hx. unfold normalizeAmount, ToString, Number_toString.
    by rewrite Hx.
  - intros x negative Hx. unfold normalizeAmount, ToString, Number_toString.
    rewrite Hx. by destruct negative.
  - by intros [].
Qed.

(** C6. Normalising a normalised amount changes nothing. *)
Theorem normalizeAmount_idempotent (x : JsValue) :
  normalizeAmount (JsString (normalizeAmount x)) = normalizeAmount x.
Proof.
  destruct x as [| |b|x|s]; [reflexivity..| | |].
  all: rewrite (normalizeAmount_defined (JsString _)) by done.
  all: rewrite normalizeAmount_defined by done.
  all: apply normalizeString_idempotent.
Qed.

(** ** Array.prototype.sort *)

Section ArraySortFacts.

Context {A : Type} (comparefn : A → A → Z).

Lemma shift_in_Permutation (element : A) (sorted : list A) :
  shift_in comparefn element sorted ≡ₚ element :: sorted.
Proof.
  induction sorted as [|tmp rest IH]; simpl; [done|].
  destruct (0 <? comparefn tmp element)%Z; [|done].
  rewrite IH. apply Permutation_swap.
Qed.

Lemma fold_shift_in_Permutation (array sorted : list A) :
  fold_left (fun sorted element => shift_in comparefn element sorted)
    array sorted ≡ₚ array ++ sorted.
Proof.
  revert sorted. induction array as [|x array IH]; intros sorted; simpl.
  - done.
  - rewrite IH, shift_in_Permutation. by rewrite Permutation_middle.
Qed.

Lemma Array_sort_Permutation (array : list A) :
  Array_sort comparefn array ≡ₚ array.
Proof.
  unfold Array_sort.
  by rewrite reverse_Permutation, fold_shift_in_Permutation, app_nil_r.
Qed.

Hypothesis comparefn_antisym :
  ∀ a b, (0 < comparefn a b)%Z → (comparefn b a ≤ 0)%Z.

Lemma shift_in_Sorted (element : A) (sorted : list A) :
  Sorted (flip (ordered comparefn)) sorted →
  Sorted (flip (ordered comparefn)) (shift_in comparefn element sorted).
Proof.
  induction sorted as [|tmp rest IH]; intros Hs; simpl.
  - by repeat constructor.
  - destruct (0 <? comparefn tmp element)%Z eqn:Hcmp.
    + apply Z.ltb_lt in Hcmp. inversion_clear Hs as [|?? Hrest Hhd].
      constructor; [by apply IH|].
      destruct rest as [|next rest]; simpl.
      * constructor. by apply comparefn_antisym.
      * destruct (0 <? comparefn next element)%Z.
        -- constructor. by inversion_clear Hhd.
        -- constructor. by apply comparefn_antisym.
    + apply Z.ltb_ge in Hcmp. constructor; [done|]. by constructor.
Qed.

Lemma fold_shift_in_Sorted (array sorted : list A) :
  Sorted (flip (ordered comparefn)) sorted →
  Sorted (flip (ordered comparefn))
    (fold_left (fun sorted element => shift_in comparefn element sorted)
       array sorted).
Proof.
  revert sorted. induction array as [|x array IH]; intros sorted Hs; simpl.
  - done.
  - by apply IH, shift_in_Sorted.
Qed.

Lemma Array_sort_Sorted (array : list A) :
  Sorted (ordered comparefn) (Array_sort comparefn array).
Proof.
  unfold Array_sort.
  apply (Sorted_reverse (flip (ordered comparefn))), fold_shift_in_Sorted. constructor.
Qed.

End ArraySortFacts.

(** ** Events *)

Lemma truthy_None (f : Field string) : truthy f = None ↔ empty_or_missing f.
Proof.
  unfold empty_or_missing. destruct f as [| |s]; simpl.
  - intuition.
  - intuition.
  - destruct (String.eqb s "") eqn:Hs.
    + apply String.eqb_eq in Hs as ->. intuition.
    + apply String.eqb_neq in Hs. intuition congruence.
Qed.

Lemma truthy_Some (f : Field string) (s : string) :
  truthy f = Some s ↔ f = value s ∧ s ≠ "".
Proof.
  destruct f as [| |s']; simpl.
  - intuition congruence.
  - intuition congruence.
  - destruct (String.eqb s' "") eqn:Hs.
    + apply String.eqb_eq in Hs as ->. intuition congruence.
    + apply String.eqb_neq in Hs. intuition congruence.
Qed.

Lemma defined_None {A : Type} (f : Field A) :
  defined f = None ↔ missing_or_null f.
Proof. unfold missing_or_null. destruct f; simpl; intuition congruence. Qed.

Lemma defined_Some {A : Type} (f : Field A) (a : A) :
  defined f = Some a ↔ f = value a.
Proof. destruct f; simpl; intuition congruence. Qed.

Lemma buildEdge_Ok (event : Event.t) (wallet : string) (edge : Edge.t) :
  buildEdge event = Ok (wallet, edge) ↔
  ∃ contract authority_type target_entity block timestamp,
    truthy (Event.wallet event) = Some wallet
    ∧ truthy (Event.contract event) = Some contract
    ∧ truthy (Event.authority_type event) = Some authority_type
    ∧ truthy (Event.target_entity event) = Some target_entity
    ∧ defined (Event.block event) = Some block
    ∧ defined (Event.timestamp event) = Some timestamp
    ∧ edge = {| Edge.type := authority_type;
                Edge.contract := contract;
                Edge.target_entity := target_entity;
                Edge.amount := normalizeAmount (Event.amount event);
                Edge.block := block;
                Edge.timestamp := timestamp;
                Edge.revocation_possible := "UNKNOWN";
                Edge.tx_hash := truthy (Event.tx_hash event);
                Edge.log_index := defined (Event.log_index event) |}.
Proof.
  unfold buildEdge.
  destruct (truthy (Event.wallet event)) as [w|];
    [|split; [done | intros (?&?&?&?&?&?&?); done]].
  destruct (truthy (Event.contract event)) as [c|];
    [|split; [done | intros (?&?&?&?&?&?&?&?); done]].
  destruct (truthy (Event.authority_type event)) as [a|];
    [|split; [done | intros (?&?&?&?&?&?&?&?&?); done]].
  destruct (truthy (Event.target_entity event)) as [t|];
    [|split; [done | intros (?&?&?&?&?&?&?&?&?&?); done]].
  destruct (defined (Event.block event)) as [b|];
    [|split; [done | intros (?&?&?&?&?&?&?&?&?&?&?); done]].
  destruct (defined (Event.timestamp event)) as [ts|];
    [|split; [done | intros (?&?&?&?&?&?&?&?&?&?&?&?); done]].
  simpl. split.
  - intros [= <- <-]. by eexists _, _, _, _, _.
  - intros (?&?&?&?&?&?&?&?&?&?&?&->). by simplify_eq.
Qed.

Lemma buildEdge_Throw (event : Event.t) (e : Exception) :
  buildEdge event = Throw e →
  ∃ field, e = MissingFieldError field ∧ offending field event.
Proof.
  unfold buildEdge, offending.
  destruct (truthy (Event.wallet event)) eqn:Hw; simpl;
    [|apply truthy_None in Hw; intros [= <-]; eexists; split; [done|]; tauto].
  destruct (truthy (Event.contract event)) eqn:Hc; simpl;
    [|apply truthy_None in Hc; intros [= <-]; eexists; split; [done|]; tauto].
  destruct (truthy (Event.authority_type event)) eqn:Ha; simpl;
    [|apply truthy_None in Ha; intros [= <-]; eexists; split; [done|]; tauto].
  destruct (truthy (Event.target_entity event)) eqn:Ht; simpl;
    [|apply truthy_None in Ht; intros [= <-]; eexists; split; [done|]; tauto].
  destruct (defined (Event.block event)) eqn:Hb; simpl;
    [|apply defined_None in Hb; intros [= <-]; eexists; split; [done|]; tauto].
  destruct (defined (Event.timestamp event)) eqn:Hts; simpl;
    [|apply defined_None in Hts; intros [= <-]; eexists; split; [done|]; tauto].
  done.
Qed.

Lemma buildEdge_malformed (event : Event.t) :
  malformed event ↔ ∃ e, buildEdge event = Throw e.
Proof.
  split.
  - intros [field Hoff].
    destruct (buildEdge event) as [[w edge]|e] eqn:Hb; [|by exists e].
    apply buildEdge_Ok in Hb as (?&?&?&?&?&Hw&Hc&Ha&Ht&Hbl&Hts&_).
    unfold offending in Hoff.
    rewrite <-!truthy_None, <-!defined_None in Hoff.
    intuition congruence.
  - intros [e He]. apply buildEdge_Throw in He as (field&_&Hoff).
    by exists field.
Qed.

(** ** Grouping *)

Lemma pushEdge_lookup (walletGroups walletGroups' : gmap string (list Edge.t))
    (wallet : string) (edge : Edge.t) :
  pushEdge walletGroups wallet edge = Ok walletGroups' →
  walletGroups' = <[wallet := default [] (walletGroups !! wallet) ++ [edge]]> walletGroups.
Proof.
  unfold pushEdge. destruct (walletGroups !! wallet) as [edges|]; simpl.
  - by intros [= <-].
  - destruct (inherited wallet); [done|]. by intros [= <-].
Qed.

Lemma edgesOf_cons (wallet : string) (event : Event.t) (events : list Event.t) :
  edgesOf wallet (event :: events)
  = match edgeFor wallet event with
    | Some edge => edge :: edgesOf wallet events
    | None => edgesOf wallet events
    end.
Proof. reflexivity. Qed.

Lemma groupEvents_cons (event : Event.t) (events : list Event.t)
    (walletGroups walletGroups' : gmap string (list Edge.t)) :
  groupEvents (event :: events) walletGroups = Ok walletGroups' ↔
  ∃ wallet edge pushed,
    buildEdge event = Ok (wallet, edge)
    ∧ pushEdge walletGroups wallet edge = Ok pushed
    ∧ groupEvents events pushed = Ok walletGroups'.
Proof.
  simpl. destruct (buildEdge event) as [[wallet edge]|e]; simpl.
  - destruct (pushEdge walletGroups wallet edge) as [pushed|e] eqn:Hpush; simpl.
    + split; [intros Hrest; by exists wallet, edge, pushed|].
      intros (?&?&?&[= <- <-]&Hp&?). rewrite Hpush in Hp. by injection Hp as <-.
    + split; [done|]. intros (?&?&?&[= <- <-]&Hp&?). by rewrite Hpush in Hp.
  - split; [done|]. by intros (?&?&?&?&?&?).
Qed.

Lemma groupEvents_lookup (events : list Event.t)
    (walletGroups walletGroups' : gmap string (list Edge.t)) (wallet : string) :
  groupEvents events walletGroups = Ok walletGroups' →
  walletGroups' !! wallet
  = match walletGroups !! wallet, edgesOf wallet events with
    | Some edges, new => Some (edges ++ new)
    | None, [] => None
    | None, new => Some new
    end.
Proof.
  revert walletGroups. induction events as [|event events IH]; intros walletGroups.
  - intros [= <-]. simpl. destruct (walletGroups !! wallet); [|done].
    by rewrite app_nil_r.
  - intros (w & edge & pushed & Hbuild & Hpush & Hrest)%groupEvents_cons.
    rewrite (IH _ Hrest), edgesOf_cons. unfold edgeFor. rewrite Hbuild.
    apply pushEdge_lookup in Hpush as ->.
    destruct (decide (w = wallet)) as [->|Hne].
    + rewrite lookup_insert_eq.
      destruct (walletGroups !! wallet) as [edges|]; simpl.
      * by rewrite <-app_assoc.
      * done.
    + by rewrite lookup_insert_ne.
Qed.

Lemma groupEvents_buildsEdge (events : list Event.t)
    (walletGroups walletGroups' : gmap string (list Edge.t)) :
  groupEvents events walletGroups = Ok walletGroups' →
  Forall buildsEdge events.
Proof.
  revert walletGroups. induction events as [|event events IH]; intros walletGroups.
  - constructor.
  - intros (w & edge & pushed & Hbuild & Hpush & Hrest)%groupEvents_cons.
    constructor; [by exists w, edge | by eapply IH].
Qed.

Lemma edgesOf_filter (wallet : string) (events : list Event.t) :
  Forall buildsEdge events →
  Forall2 (fun event edge => buildEdge event = Ok (wallet, edge))
    (filter (hasWallet wallet) events) (edgesOf wallet events).
Proof.
  induction 1 as [|event events (w & edge & Hbuild) _ IH]; [constructor|].
  rewrite filter_cons, edgesOf_cons. unfold edgeFor. rewrite Hbuild.
  pose proof Hbuild as (_&_&_&_&_&Hw&_)%buildEdge_Ok.
  apply truthy_Some in Hw as [Hw _].
  destruct (decide (w = wallet)) as [->|Hne].
  - rewrite decide_True by done. by constructor.
  - rewrite decide_False; [done|]. unfold hasWallet. congruence.
Qed.

Lemma edgesOf_elem_of (wallet : string) (event : Event.t) (edge : Edge.t)
    (events : list Event.t) :
  event ∈ events → buildEdge event = Ok (wallet, edge) →
  edge ∈ edgesOf wallet events.
Proof.
  intros Hin Hbuild. unfold edgesOf. apply list_elem_of_omap.
  exists event. split; [done|]. unfold edgeFor. rewrite Hbuild.
  by rewrite decide_True.
Qed.

Lemma edgesOf_inv (wallet : string) (edge : Edge.t) (events : list Event.t) :
  edge ∈ edgesOf wallet events →
  ∃ event, event ∈ events ∧ buildEdge event = Ok (wallet, edge).
Proof.
  unfold edgesOf. intros (event & Hin & Hfor)%list_elem_of_omap.
  exists event. split; [done|]. unfold edgeFor in Hfor.
  destruct (buildEdge event) as [[w e]|]; [|done].
  destruct (decide (w = wallet)) as [->|]; [|done]. by injection Hfor as ->.
Qed.

(** Failure of the loop. *)
Lemma groupEvents_Throw (events : list Event.t)
    (walletGroups : gmap string (list Edge.t)) (e : Exception) :
  groupEvents events walletGroups = Throw e →
  (∃ field event,
      event ∈ events ∧ e = MissingFieldError field ∧ offending field event)
  ∨ (∃ message wallet event,
      event ∈ events ∧ e = TypeError message
      ∧ Event.wallet event = value wallet ∧ inherited wallet = true).
Proof.
  revert walletGroups. induction events as [|event events IH];
    intros walletGroups; simpl; [done|].
  destruct (buildEdge event) as [[wallet edge]|e'] eqn:Hbuild; simpl.
  - unfold pushEdge at 1.
    destruct (walletGroups !! wallet) as [edges|]; simpl.
    + intros [(field & ev & Hin & ? & ?) | (msg & w & ev & Hin & ? & ? & ?)]%IH.
      * left. exists field, ev. split; [by right | done].
      * right. exists msg, w, ev. split; [by right | done].
    + destruct (inherited wallet) eqn:Hinh; simpl.
      * intros [= <-]. right. eexists _, wallet, event.
        split; [by left|]. split; [done|]. split; [|done].
        apply buildEdge_Ok in Hbuild as (_&_&_&_&_&Hw&_).
        by apply truthy_Some in Hw as [Hw _].
      * intros [(field & ev & Hin & ? & ?) | (msg & w & ev & Hin & ? & ? & ?)]%IH.
        -- left. exists field, ev. split; [by right | done].
        -- right. exists msg, w, ev. split; [by right | done].
  - intros [= <-]. apply buildEdge_Throw in Hbuild as (field & -> & Hoff).
    left. exists field, event. split; [by left | done].
Qed.

Lemma groupEvents_ext (events events' : list Event.t)
    (walletGroups : gmap string (list Edge.t)) :
  Forall2 (fun event event' => buildEdge event = buildEdge event')
    events events' →
  groupEvents events walletGroups = groupEvents events' walletGroups.
Proof.
  intros Hall. revert walletGroups.
  induction Hall as [|event event' events events' Hedge _ IH];
    intros walletGroups; simpl; [done|].
  rewrite Hedge. destruct (buildEdge event') as [[key edge]|]; simpl; [|done].
  destruct (pushEdge walletGroups key edge); simpl; [apply IH | done].
Qed.

Lemma buildEdge_dropEmptyTxHash (event : Event.t) :
  buildEdge (dropEmptyTxHash event) = buildEdge event.
Proof.
  unfold dropEmptyTxHash.
  destruct (decide (Event.tx_hash event = value "")) as [Hempty|]; [|done].
  unfold buildEdge, withoutTxHash. simpl. by rewrite Hempty.
Qed.

Lemma groupEvents_malformed (events : list Event.t)
    (walletGroups walletGroups' : gmap string (list Edge.t)) :
  Exists malformed events →
  groupEvents events walletGroups ≠ Ok walletGroups'.
Proof.
  intros Hex Hok. apply groupEvents_buildsEdge in Hok.
  apply Exists_exists in Hex as (event & Hin & Hbad).
  rewrite Forall_forall in Hok. destruct (Hok event Hin) as (key & edge & Hedge).
  apply buildEdge_malformed in Hbad as [e He]. congruence.
Qed.

Lemma groupEvents_ownWallets (events : list Event.t)
    (walletGroups : gmap string (list Edge.t)) :
  ownWallets events → Exists malformed events →
  ∃ field, groupEvents events walletGroups = Throw (MissingFieldError field).
Proof.
  intros Hown Hex.
  destruct (groupEvents events walletGroups) as [walletGroups'|e] eqn:Hgroup.
  - by apply groupEvents_malformed in Hgroup.
  - apply groupEvents_Throw in Hgroup
      as [(field & _ & _ & -> & _) | (msg & key & event & Hin & _ & Hw & Hinh)].
    + by exists field.
    + by rewrite (Hown event key Hin Hw) in Hinh.
Qed.

Lemma MissingFieldError_not_InvalidInputError (field : string) :
  MissingFieldError field ≠ InvalidInputError.
Proof. unfold MissingFieldError, InvalidInputError. simpl. discriminate. Qed.

(** ** Counting edges *)

Lemma allEdges_insert (walletGroups : gmap string (list Edge.t))
    (wallet : string) (edges : list Edge.t) :
  walletGroups !! wallet = None →
  allEdges (<[wallet := edges]> walletGroups) ≡ₚ edges ++ allEdges walletGroups.
Proof.
  intros Hnone. unfold allEdges.
  by rewrite (map_to_list_insert _ _ _ Hnone).
Qed.

Lemma allEdges_update (walletGroups : gmap string (list Edge.t))
    (wallet : string) (edges : list Edge.t) (edge : Edge.t) :
  walletGroups !! wallet = Some edges →
  allEdges (<[wallet := edges ++ [edge]]> walletGroups)
  ≡ₚ edge :: allEdges walletGroups.
Proof.
  intros Hsome.
  rewrite <-(insert_delete_id walletGroups wallet edges Hsome) at 2.
  rewrite <-insert_delete_eq.
  rewrite !allEdges_insert by apply lookup_delete_eq.
  rewrite <-app_assoc. symmetry. apply Permutation_middle.
Qed.

Lemma pushEdge_allEdges (walletGroups walletGroups' : gmap string (list Edge.t))
    (wallet : string) (edge : Edge.t) :
  pushEdge walletGroups wallet edge = Ok walletGroups' →
  allEdges walletGroups' ≡ₚ edge :: allEdges walletGroups.
Proof.
  unfold pushEdge. destruct (walletGroups !! wallet) as [edges|] eqn:Hlook.
  - intros [= <-]. by apply allEdges_update.
  - destruct (inherited wallet); [done|]. intros [= <-].
    by rewrite allEdges_insert.
Qed.

Lemma groupEvents_allEdges (events : list Event.t)
    (walletGroups walletGroups' : gmap string (list Edge.t)) :
  groupEvents events walletGroups = Ok walletGroups' →
  allEdges walletGroups' ≡ₚ allEdges walletGroups ++ builtEdges events.
Proof.
  revert walletGroups. induction events as [|event events IH]; intros walletGroups.
  - intros [= <-]. simpl. by rewrite app_nil_r.
  - intros (w & edge & pushed & Hbuild & Hpush & Hrest)%groupEvents_cons.
    rewrite (IH _ Hrest), (pushEdge_allEdges _ _ _ _ Hpush).
    unfold builtEdges. simpl. rewrite Hbuild. simpl.
    by rewrite <-Permutation_middle.
Qed.

Lemma builtEdges_Forall2 (events : list Event.t) :
  Forall buildsEdge events →
  Forall2 (fun event edge => ∃ wallet, buildEdge event = Ok (wallet, edge))
    events (builtEdges events).
Proof.
  induction 1 as [|event events (w & edge & Hbuild) _ IH]; [constructor|].
  unfold builtEdges. simpl. rewrite Hbuild. constructor; [by exists w | done].
Qed.

Lemma allEdges_fmap (f : list Edge.t → list Edge.t)
    (walletGroups : gmap string (list Edge.t)) :
  (∀ edges, f edges ≡ₚ edges) →
  allEdges (f <$> walletGroups) ≡ₚ allEdges walletGroups.
Proof.
  intros Hf. induction walletGroups as [|wallet edges m Hnone IH] using map_ind.
  - by rewrite fmap_empty.
  - rewrite fmap_insert, !allEdges_insert; [|done|by rewrite lookup_fmap, Hnone].
    by rewrite IH, Hf.
Qed.

Lemma graphEdges_buildResults (walletGroups : gmap string (list Edge.t)) :
  graphEdges (buildResults walletGroups) ≡ₚ allEdges walletGroups.
Proof.
  unfold buildResults.
  induction walletGroups as [|wallet edges m Hnone IH] using map_ind.
  - by rewrite map_imap_empty.
  - erewrite map_imap_insert_Some by done.
    rewrite allEdges_insert by done. unfold graphEdges in *.
    rewrite map_to_list_insert by (by rewrite map_lookup_imap, Hnone).
    simpl. by rewrite IH.
Qed.

Lemma buildResults_lookup (walletGroups : gmap string (list Edge.t))
    (wallet : string) :
  buildResults walletGroups !! wallet
  = (fun edges => {| wallet := wallet; authority_edges := edges |})
      <$> walletGroups !! wallet.
Proof.
  unfold buildResults. rewrite map_lookup_imap.
  by destruct (walletGroups !! wallet).
Qed.

(** ** The comparison function *)

Section BuilderFacts.

Variable localeCompare : string → string → Z.

Lemma compareTxHash_None_sym (a b : Edge.t) :
  compareTxHash localeCompare a b = None →
  compareTxHash localeCompare b a = None.
Proof.
  unfold compareTxHash.
  destruct (Edge.tx_hash a) as [ta|], (Edge.tx_hash b) as [tb|]; try done.
  rewrite (String.eqb_sym tb ta).
  destruct (String.eqb ta ""), (String.eqb tb ""), (String.eqb ta tb); done.
Qed.

Lemma compareTxHash_Some (a b : Edge.t) (order : Z) :
  compareTxHash localeCompare a b = Some order →
  ∃ ta tb, Edge.tx_hash a = Some ta ∧ Edge.tx_hash b = Some tb
           ∧ ta ≠ "" ∧ tb ≠ "" ∧ ta ≠ tb
           ∧ order = localeCompare ta tb
           ∧ compareTxHash localeCompare b a = Some (localeCompare tb ta).
Proof.
  unfold compareTxHash.
  destruct (Edge.tx_hash a) as [ta|], (Edge.tx_hash b) as [tb|]; try done.
  rewrite (String.eqb_sym tb ta).
  destruct (String.eqb ta "") eqn:Ha, (String.eqb tb "") eqn:Hb,
    (String.eqb ta tb) eqn:Hab; try done.
  simpl. intros [= <-]. exists ta, tb.
  apply String.eqb_neq in Ha, Hb, Hab. done.
Qed.

Lemma compareLogIndex_sym (a b : Edge.t) :
  compareLogIndex b a = (fun order => (- order)%Z) <$> compareLogIndex a b.
Proof.
  unfold compareLogIndex.
  destruct (Edge.log_index a), (Edge.log_index b); simpl; try done.
  f_equal. lia.
Qed.

(** The order of the comparison function, key by key. *)
Lemma ordered_compareEdges (a b : Edge.t) :
  ordered (compareEdges localeCompare) a b ↔
  (Edge.block a < Edge.block b)%Z
  ∨ Edge.block a = Edge.block b
    ∧ match compareTxHash localeCompare a b with
      | Some order => (order ≤ 0)%Z
      | None =>
          match Edge.log_index a, Edge.log_index b with
          | Some ia, Some ib => (ia ≤ ib)%Z
          | _, _ => (Edge.timestamp a ≤ Edge.timestamp b)%Z
          end
      end.
Proof.
  unfold ordered, compareEdges, compareLogIndex.
  destruct (Z.eqb_spec (Edge.block a) (Edge.block b)) as [Heq|Hne]; simpl.
  - destruct (compareTxHash localeCompare a b) as [order|].
    + intuition lia.
    + destruct (Edge.log_index a), (Edge.log_index b); intuition lia.
  - intuition lia.
Qed.

Section Antisymmetric.

Hypothesis localeCompare_antisym :
  ∀ s t, (0 < localeCompare s t)%Z → (localeCompare t s ≤ 0)%Z.

Lemma compareEdges_antisym (a b : Edge.t) :
  (0 < compareEdges localeCompare a b)%Z → (compareEdges localeCompare b a ≤ 0)%Z.
Proof.
  unfold compareEdges. rewrite (Z.eqb_sym (Edge.block b)).
  destruct (Edge.block a =? Edge.block b)%Z eqn:Hblock; simpl; [|lia].
  destruct (compareTxHash localeCompare a b) as [order|] eqn:Htx.
  - apply compareTxHash_Some in Htx as (ta & tb & _ & _ & _ & _ & _ & -> & ->).
    apply localeCompare_antisym.
  - rewrite (compareTxHash_None_sym _ _ Htx), (compareLogIndex_sym a b).
    destruct (compareLogIndex a b); cbn; lia.
Qed.

End Antisymmetric.

End BuilderFacts.

Lemma codeUnitCompare_antisym (s t : string) :
  (0 < codeUnitCompare s t)%Z → (codeUnitCompare t s ≤ 0)%Z.
Proof.
  unfold codeUnitCompare. rewrite (String.compare_antisym t s).
  destruct (String.compare s t); simpl; lia.
Qed.

(** ** buildAuthorityGraph *)

Section GraphFacts.

Variable localeCompare : string → string → Z.

Lemma buildAuthorityGraph_Ok (events : list Event.t)
    (graphs : gmap string WalletGraph) :
  buildAuthorityGraph localeCompare (ArrayOf events) = Ok graphs ↔
  ∃ walletGroups,
    groupEvents events ∅ = Ok walletGroups
    ∧ graphs = buildResults
                 (Array_sort (compareEdges localeCompare) <$> walletGroups).
Proof.
  unfold buildAuthorityGraph. destruct events as [|event events].
  - simpl. unfold buildResults. split.
    + intros [= <-]. exists ∅. by rewrite fmap_empty, map_imap_empty.
    + intros (walletGroups & [= <-] & ->).
      by rewrite fmap_empty, map_imap_empty.
  - change (length (event :: events) =? 0)%nat with false. cbv iota.
    destruct (groupEvents (event :: events) ∅) as [walletGroups|e]; simpl.
    + split.
      * intros [= <-]. by exists walletGroups.
      * by intros (? & [= <-] & ->).
    + split; [done|]. by intros (? & ? & _).
Qed.

Lemma buildAuthorityGraph_Throw (events : list Event.t) (e : Exception) :
  buildAuthorityGraph localeCompare (ArrayOf events) = Throw e ↔
  groupEvents events ∅ = Throw e.
Proof.
  unfold buildAuthorityGraph.
  destruct events as [|event events]; [simpl; split; congruence|].
  change (length (event :: events) =? 0)%nat with false. cbv iota.
  destruct (groupEvents (event :: events) ∅); simpl; split; congruence.
Qed.

Lemma buildAuthorityGraph_array (input : JsInput)
    (graphs : gmap string WalletGraph) :
  buildAuthorityGraph localeCompare input = Ok graphs →
  ∃ events, input = ArrayOf events.
Proof. destruct input as [v|events]; [done|]. by exists events. Qed.

Lemma buildAuthorityGraph_lookup (events : list Event.t)
    (graphs : gmap string WalletGraph) (wallet : string) :
  buildAuthorityGraph localeCompare (ArrayOf events) = Ok graphs →
  graphs !! wallet
  = match edgesOf wallet events with
    | [] => None
    | edges =>
        Some {| wallet := wallet;
                authority_edges :=
                  Array_sort (compareEdges localeCompare) edges |}
    end.
Proof.
  intros (walletGroups & Hgroups & ->)%buildAuthorityGraph_Ok.
  rewrite buildResults_lookup, lookup_fmap.
  rewrite (groupEvents_lookup _ _ _ wallet Hgroups), lookup_empty.
  by destruct (edgesOf wallet events).
Qed.

Lemma buildAuthorityGraph_lookup_Some (events : list Event.t)
    (graphs : gmap string WalletGraph) (wallet : string) (graph : WalletGraph) :
  buildAuthorityGraph localeCompare (ArrayOf events) = Ok graphs →
  graphs !! wallet = Some graph →
  graph = {| wallet := wallet;
             authority_edges :=
               Array_sort (compareEdges localeCompare)
                 (edgesOf wallet events) |}.
Proof.
  intros Hbuild. rewrite (buildAuthorityGraph_lookup _ _ wallet Hbuild).
  destruct (edgesOf wallet events); [done|]. by intros [= <-].
Qed.

Lemma buildAuthorityGraph_buildsEdge (events : list Event.t)
    (graphs : gmap string WalletGraph) :
  buildAuthorityGraph localeCompare (ArrayOf events) = Ok graphs →
  Forall buildsEdge events.
Proof.
  intros (walletGroups & Hgroups & _)%buildAuthorityGraph_Ok.
  by eapply groupEvents_buildsEdge.
Qed.

(** Every event of an accepted input has its edge in the output. *)
Lemma buildAuthorityGraph_event (events : list Event.t)
    (graphs : gmap string WalletGraph) (event : Event.t) :
  buildAuthorityGraph localeCompare (ArrayOf events) = Ok graphs →
  event ∈ events →
  ∃ wallet graph edge,
    buildEdge event = Ok (wallet, edge)
    ∧ graphs !! wallet = Some graph
    ∧ edge ∈ authority_edges graph.
Proof.
  intros Hbuild Hin.
  pose proof (buildAuthorityGraph_buildsEdge _ _ Hbuild) as Hall.
  rewrite Forall_forall in Hall.
  destruct (Hall event Hin) as (wallet & edge & Hedge).
  pose proof (edgesOf_elem_of wallet event edge events Hin Hedge) as Hmem.
  exists wallet,
    {| wallet := wallet;
       authority_edges :=
         Array_sort (compareEdges localeCompare) (edgesOf wallet events) |},
    edge.
  split; [done|].
  rewrite (buildAuthorityGraph_lookup _ _ wallet Hbuild). simpl. split.
  - destruct (edgesOf wallet events); [|done]. by apply elem_of_nil in Hmem.
  - by rewrite Array_sort_Permutation.
Qed.

(** Every edge of the output was built from an event of its wallet. *)
Lemma buildAuthorityGraph_edge (events : list Event.t)
    (graphs : gmap string WalletGraph) (wallet : string)
    (graph : WalletGraph) (edge : Edge.t) :
  buildAuthorityGraph localeCompare (ArrayOf events) = Ok graphs →
  graphs !! wallet = Some graph →
  edge ∈ authority_edges graph →
  ∃ event, event ∈ events ∧ buildEdge event = Ok (wallet, edge).
Proof.
  intros Hbuild Hlook Hin.
  rewrite (buildAuthorityGraph_lookup_Some _ _ _ _ Hbuild Hlook) in Hin.
  simpl in Hin. rewrite Array_sort_Permutation in Hin.
  by apply edgesOf_inv.
Qed.

Lemma buildAuthorityGraph_ext (events events' : list Event.t) :
  Forall2 (fun event event' => buildEdge event = buildEdge event')
    events events' →
  buildAuthorityGraph localeCompare (ArrayOf events)
  = buildAuthorityGraph localeCompare (ArrayOf events').
Proof.
  intros Hall. unfold buildAuthorityGraph.
  rewrite (Forall2_length _ _ _ Hall).
  by rewrite (groupEvents_ext _ _ _ Hall).
Qed.

(** The missing-field error names a field that some event lacks, and a
    malformed event leaves the call without a result. *)
Lemma MissingFieldError_offending (events : list Event.t) (field : string) :
  buildAuthorityGraph localeCompare (ArrayOf events)
  = Throw (MissingFieldError field) →
  ∃ event, event ∈ events ∧ offending field event.
Proof.
  intros Hthrow%buildAuthorityGraph_Throw.
  apply groupEvents_Throw in Hthrow
    as [(field' & event & Hin & Herr & Hoff) | (msg & _ & _ & _ & Herr & _)];
    [|discriminate Herr].
  exists event. split; [done|].
  unfold MissingFieldError in Herr. injection Herr as Herr.
  apply (inj (String.append _)) in Herr. by subst.
Qed.

Lemma malformed_aborts (events : list Event.t)
    (graphs : gmap string WalletGraph) :
  Exists malformed events →
  buildAuthorityGraph localeCompare (ArrayOf events) ≠ Ok graphs.
Proof.
  intros Hex (walletGroups & Hgroups & _)%buildAuthorityGraph_Ok.
  by apply groupEvents_malformed in Hgroups.
Qed.

(** When no wallet names an inherited property, the missing-field error is
    thrown exactly for the inputs that hold a malformed event. *)
Lemma MissingFieldError_iff_malformed (events : list Event.t) :
  ownWallets events →
  (∃ field,
      buildAuthorityGraph localeCompare (ArrayOf events)
      = Throw (MissingFieldError field))
  ↔ Exists malformed events.
Proof.
  intros Hown. split.
  - intros [field (event & Hin & Hoff)%MissingFieldError_offending].
    apply Exists_exists. exists event. split; [done | by exists field].
  - intros Hex.
    destruct (groupEvents_ownWallets events ∅ Hown Hex) as [field Hthrow].
    exists field. by apply buildAuthorityGraph_Throw.
Qed.

End GraphFacts.

(** * The claims *)

Section Claims.

Variable localeCompare : string → string → Z.

(** The comparison function and the chain of the specification agree on
    every pair of edges that do not carry the same [log_index], when
    [localeCompare] reports a tie for equal strings only. *)
Lemma compareEdges_claimedCompare (a b : Edge.t) :
  (∀ s t, localeCompare s t = 0%Z ↔ s = t) →
  (∀ index, ¬ (Edge.log_index a = Some index
               ∧ Edge.log_index b = Some index)) →
  compareEdges localeCompare a b = claimedCompare localeCompare a b.
Proof.
  intros Hlc Hlog.
  unfold compareEdges, claimedCompare, compareTxHash, compareLogIndex, tieBreak.
  replace (Edge.block a - Edge.block b =? 0)%Z
    with (Edge.block a =? Edge.block b)%Z
    by (destruct (Z.eqb_spec (Edge.block a) (Edge.block b)),
          (Z.eqb_spec (Edge.block a - Edge.block b) 0); lia).
  destruct (Edge.block a =? Edge.block b)%Z; simpl; [|done].
  assert (Hrest :
    match Edge.log_index a, Edge.log_index b with
    | Some ia, Some ib => (ia - ib)%Z
    | _, _ => (Edge.timestamp a - Edge.timestamp b)%Z
    end
    = match
        match Edge.log_index a, Edge.log_index b with
        | Some ia, Some ib => Some (ia - ib)%Z
        | _, _ => None
        end
      with
      | Some order =>
          if (order =? 0)%Z
          then (Edge.timestamp a - Edge.timestamp b)%Z
          else order
      | None => (Edge.timestamp a - Edge.timestamp b)%Z
      end).
  { destruct (Edge.log_index a) as [ia|], (Edge.log_index b) as [ib|];
      try done.
    destruct (Z.eqb_spec (ia - ib) 0) as [Heq|]; [|done].
    destruct (Hlog ia). split; [done|]. f_equal. lia. }
  destruct (Edge.tx_hash a) as [ta|], (Edge.tx_hash b) as [tb|];
    try (destruct (Edge.log_index a), (Edge.log_index b); exact Hrest).
  destruct (String.eqb ta ""), (String.eqb tb ""); simpl;
    try (destruct (Edge.log_index a), (Edge.log_index b); exact Hrest).
  destruct (String.eqb_spec ta tb) as [->|Hne]; simpl.
  - rewrite (proj2 (Hlc tb tb) eq_refl). simpl.
    destruct (Edge.log_index a), (Edge.log_index b); exact Hrest.
  - destruct (Z.eqb_spec (localeCompare ta tb) 0) as [Hz|]; [|done].
    by apply Hlc in Hz.
Qed.

(** C3. An accepted input is partitioned without loss: the edges of the
    output are, one for one, the edges built from the input events; the
    graph stored under a wallet holds that wallet and exactly the edges
    built from the events whose wallet field is that wallet; and every
    event's wallet is a key of the output. *)
Theorem graph_is_lossless_partition (events : list Event.t)
    (graphs : gmap string WalletGraph) :
  buildAuthorityGraph localeCompare (ArrayOf events) = Ok graphs →
  (∃ edges,
      Forall2 (fun event edge =>
                 ∃ wallet, buildEdge event = Ok (wallet, edge))
        events edges
      ∧ graphEdges graphs ≡ₚ edges)
  ∧ (∀ key graph,
        graphs !! key = Some graph →
        wallet graph = key
        ∧ ∃ edges,
            Forall2 (fun event edge => buildEdge event = Ok (key, edge))
              (filter (hasWallet key) events) edges
            ∧ authority_edges graph ≡ₚ edges)
  ∧ (∀ event,
        event ∈ events →
        ∃ key graph,
          Event.wallet event = value key
          ∧ graphs !! key = Some graph).
Proof.
  intros Hbuild.
  pose proof (buildAuthorityGraph_buildsEdge _ _ _ Hbuild) as Hall.
  split; [|split].
  - exists (builtEdges events). split; [by apply builtEdges_Forall2|].
    apply buildAuthorityGraph_Ok in Hbuild as (walletGroups & Hgroups & ->).
    rewrite graphEdges_buildResults.
    rewrite allEdges_fmap by apply Array_sort_Permutation.
    rewrite (groupEvents_allEdges _ _ _ Hgroups).
    unfold allEdges. by rewrite map_to_list_empty.
  - intros key graph Hlook.
    rewrite (buildAuthorityGraph_lookup_Some _ _ _ _ _ Hbuild Hlook). simpl.
    split; [done|]. exists (edgesOf key events).
    split; [by apply edgesOf_filter | apply Array_sort_Permutation].
  - intros event Hin.
    destruct (buildAuthorityGraph_event _ _ _ _ Hbuild Hin)
      as (key & graph & edge & Hedge & Hlook & _).
    exists key, graph. split; [|done].
    apply buildEdge_Ok in Hedge as (?&?&?&?&?&Hw&_).
    by apply truthy_Some in Hw as [Hw _].
Qed.

(** C5. [buildSingleWalletGraph] passes on a failure of
    [buildAuthorityGraph]; on its result it throws the no-events error for
    the empty object, the multiple-wallets error for more than one key, and
    otherwise returns the only graph. *)
Theorem buildSingleWalletGraph_cases (input : JsInput) :
  match buildAuthorityGraph localeCompare input with
  | Throw e => buildSingleWalletGraph localeCompare input = Throw e
  | Ok graphs =>
      (graphs = ∅ →
         buildSingleWalletGraph localeCompare input = Throw NoEventsError)
      ∧ (1 < size graphs →
           buildSingleWalletGraph localeCompare input
           = Throw MultipleWalletsError)
      ∧ (graphs ≠ ∅ → ¬ 1 < size graphs →
           ∃ wallet graph,
             graphs = {[wallet := graph]}
             ∧ buildSingleWalletGraph localeCompare input = Ok (Some graph))
  end.
Proof.
  unfold buildSingleWalletGraph.
  destruct (buildAuthorityGraph localeCompare input) as [graphs|e];
    simpl; [|done].
  unfold Object_keys. rewrite <-(length_map_to_list graphs).
  destruct (map_to_list graphs) as [|[wallet graph] [|second rest]] eqn:Hlist;
    simpl.
  - split; [done|]. split; [lia|]. intros Hne.
    by apply map_to_list_empty_iff in Hlist.
  - assert (Hsingle : graphs = {[wallet := graph]}).
    { apply map_to_list_inj. by rewrite Hlist, map_to_list_singleton. }
    split; [|split].
    + intros ->. by rewrite map_to_list_empty in Hlist.
    + lia.
    + intros _ _. exists wallet, graph. split; [done|].
      by rewrite Hsingle, lookup_singleton_eq.
  - split; [|split].
    + intros ->. by rewrite map_to_list_empty in Hlist.
    + done.
    + lia.
Qed.

(** C7. The builder throws the invalid-input error exactly when its
    argument is not an array, and maps the empty array to the empty
    object. *)
Theorem InvalidInputError_iff_not_array (input : JsInput) :
  (buildAuthorityGraph localeCompare input = Throw InvalidInputError
   ↔ isArray input = false)
  ∧ buildAuthorityGraph localeCompare (ArrayOf []) = Ok ∅.
Proof.
  split; [|reflexivity].
  destruct input as [v|events]; simpl isArray.
  - by split.
  - split; [|done].
    intros Hthrow%buildAuthorityGraph_Throw.
    apply groupEvents_Throw in Hthrow
      as [(field & _ & _ & Herr & _) | (msg & _ & _ & _ & Herr & _)].
    + symmetry in Herr. by apply MissingFieldError_not_InvalidInputError in Herr.
    + discriminate Herr.
Qed.

(** C8. Every edge of every graph the builder returns has
    [revocation_possible] equal to "UNKNOWN". *)
Theorem revocation_possible_UNKNOWN (input : JsInput)
    (graphs : gmap string WalletGraph) (wallet : string)
    (graph : WalletGraph) (edge : Edge.t) :
  buildAuthorityGraph localeCompare input = Ok graphs →
  graphs !! wallet = Some graph →
  edge ∈ authority_edges graph →
  Edge.revocation_possible edge = "UNKNOWN".
Proof.
  intros Hbuild Hlook Hin.
  destruct (buildAuthorityGraph_array _ _ _ Hbuild) as [events ->].
  destruct (buildAuthorityGraph_edge _ _ _ _ _ _ Hbuild Hlook Hin)
    as (event & _ & Hedge).
  by apply buildEdge_Ok in Hedge as (?&?&?&?&?&_&_&_&_&_&_&->).
Qed.

(** C9. An event whose [tx_hash] is the empty string is handled as the same
    event without the field: its edge has no [tx_hash], the [tx_hash] step
    of the comparison never applies to it, and the whole result is that of
    the input with those fields removed. *)
Theorem empty_tx_hash_is_absent :
  (∀ event,
      Event.tx_hash event = value "" →
      buildEdge event = buildEdge (withoutTxHash event)
      ∧ ∀ key edge,
          buildEdge event = Ok (key, edge) →
          Edge.tx_hash edge = None
          ∧ ∀ other,
              compareTxHash localeCompare edge other = None
              ∧ compareTxHash localeCompare other edge = None)
  ∧ (∀ events,
        buildAuthorityGraph localeCompare (ArrayOf events)
        = buildAuthorityGraph localeCompare
            (ArrayOf (dropEmptyTxHash <$> events)))
  ∧ (∀ events graphs event,
        buildAuthorityGraph localeCompare (ArrayOf events) = Ok graphs →
        event ∈ events →
        Event.tx_hash event = value "" →
        ∃ key graph edge,
          buildEdge event = Ok (key, edge)
          ∧ graphs !! key = Some graph
          ∧ edge ∈ authority_edges graph
          ∧ Edge.tx_hash edge = None).
Proof.
  assert (Hedge : ∀ event key edge,
    Event.tx_hash event = value "" →
    buildEdge event = Ok (key, edge) → Edge.tx_hash edge = None).
  { intros event key edge Hempty Hbuilt.
    apply buildEdge_Ok in Hbuilt as (?&?&?&?&?&_&_&_&_&_&_&->).
    simpl. by rewrite Hempty. }
  split; [|split].
  - intros event Hempty. split.
    + rewrite <-(buildEdge_dropEmptyTxHash event). unfold dropEmptyTxHash.
      by rewrite decide_True.
    + intros key edge Hbuilt.
      pose proof (Hedge _ _ _ Hempty Hbuilt) as Hnone.
      split; [done|]. intros other. unfold compareTxHash. rewrite Hnone.
      split; [done | by destruct (Edge.tx_hash other)].
  - intros events. symmetry. apply buildAuthorityGraph_ext.
    apply Forall2_fmap_l, Forall_Forall2_diag, Forall_forall.
    intros event _. apply buildEdge_dropEmptyTxHash.
  - intros events graphs event Hbuild Hin Hempty.
    destruct (buildAuthorityGraph_event _ _ _ _ Hbuild Hin)
      as (key & graph & edge & Hbuilt & Hlook & Hmem).
    exists key, graph, edge. eauto.
Qed.

(** C10. A [log_index] of 0 is kept on the edge and enters the comparison
    like any other index. *)
Theorem log_index_zero_is_kept :
  (∀ event key edge,
      Event.log_index event = value 0%Z →
      buildEdge event = Ok (key, edge) →
      Edge.log_index edge = Some 0%Z)
  ∧ (∀ a b index,
        Edge.log_index a = Some 0%Z →
        Edge.log_index b = Some index →
        Edge.block a = Edge.block b →
        compareTxHash localeCompare a b = None →
        compareEdges localeCompare a b = (0 - index)%Z
        ∧ compareEdges localeCompare b a = (index - 0)%Z)
  ∧ (∀ events graphs event,
        buildAuthorityGraph localeCompare (ArrayOf events) = Ok graphs →
        event ∈ events →
        Event.log_index event = value 0%Z →
        ∃ key graph edge,
          buildEdge event = Ok (key, edge)
          ∧ graphs !! key = Some graph
          ∧ edge ∈ authority_edges graph
          ∧ Edge.log_index edge = Some 0%Z).
Proof.
  assert (Hedge : ∀ event key edge,
    Event.log_index event = value 0%Z →
    buildEdge event = Ok (key, edge) → Edge.log_index edge = Some 0%Z).
  { intros event key edge Hzero Hbuilt.
    apply buildEdge_Ok in Hbuilt as (?&?&?&?&?&_&_&_&_&_&_&->).
    simpl. by rewrite Hzero. }
  split; [done|split].
  - intros a b index Ha Hb Hblock Htx.
    unfold compareEdges.
    rewrite (compareTxHash_None_sym _ _ _ Htx), Htx.
    unfold compareLogIndex. rewrite Ha, Hb, Hblock, Z.eqb_refl. done.
  - intros events graphs event Hbuild Hin Hzero.
    destruct (buildAuthorityGraph_event _ _ _ _ Hbuild Hin)
      as (key & graph & edge & Hbuilt & Hlook & Hmem).
    exists key, graph, edge. eauto.
Qed.

End Claims.

End Program.

(** * The engine *)

(** Where every amount is an ASCII string the engine is not consulted: the
    builder gives what it gives with any other engine. *)
Lemma normalizeAmount_engine (engine engine' : Engine) (s : string) :
  allASCII s = true →
  @normalizeAmount engine' (JsString s) = @normalizeAmount engine (JsString s).
Proof.
  intros Hs. unfold normalizeAmount, ToString, toUpperCase. by rewrite Hs.
Qed.

Lemma buildEdge_engine (engine engine' : Engine) (event : Event.t) :
  asciiAmount event → @buildEdge engine' event = @buildEdge engine event.
Proof.
  intros (s & Hamount & Hs). unfold buildEdge.
  by rewrite Hamount, (normalizeAmount_engine engine engine' s Hs).
Qed.

Lemma groupEvents_engine (engine engine' : Engine) (events : list Event.t)
    (walletGroups : gmap string (list Edge.t)) :
  Forall asciiAmount events →
  @groupEvents engine' events walletGroups
  = @groupEvents engine events walletGroups.
Proof.
  intros Hall. revert walletGroups.
  induction Hall as [|event events Hevent _ IH]; intros walletGroups; [done|].
  simpl. rewrite (buildEdge_engine engine engine' event Hevent).
  destruct (@buildEdge engine event) as [[key edge]|e]; simpl; [|done].
  destruct (pushEdge walletGroups key edge) as [pushed|e]; simpl;
    [apply IH | done].
Qed.

Lemma buildAuthorityGraph_engine (engine engine' : Engine)
    (localeCompare : string → string → Z) (events : list Event.t) :
  Forall asciiAmount events →
  @buildAuthorityGraph engine' localeCompare (ArrayOf events)
  = @buildAuthorityGraph engine localeCompare (ArrayOf events).
Proof.
  intros Hall. unfold buildAuthorityGraph.
  by rewrite (groupEvents_engine engine engine' events ∅ Hall).
Qed.

(** * The claims on concrete inputs *)

Section ClaimsOnInputs.

Context {engine : Engine}.

(** C1, at [tied_events]: two events of one wallet that agree on block,
    [tx_hash] and [log_index] and carry the timestamps 20 and 10, in that
    order.  The comparison function reports a tie for the two edges,
    whichever it is given first, so the sort leaves them as they came: the
    later timestamp stands first, against the last key of the composite
    order. *)
Lemma tied_events_out_of_timestamp_order :
  ∃ graphs first second,
    buildAuthorityGraph codeUnitCompare (ArrayOf tied_events) = Ok graphs
    ∧ graphs !! "0xABC"
      = Some {| wallet := "0xABC"; authority_edges := [first; second] |}
    ∧ Edge.block first = Edge.block second
    ∧ Edge.tx_hash first = Edge.tx_hash second
    ∧ Edge.log_index first = Edge.log_index second
    ∧ Edge.timestamp first = 20%Z
    ∧ Edge.timestamp second = 10%Z
    ∧ compareEdges codeUnitCompare first second = 0%Z
    ∧ compareEdges codeUnitCompare second first = 0%Z
    ∧ ¬ Sorted (ordered (claimedCompare codeUnitCompare)) [first; second].
Proof.
  eexists _, _, _. split; [vm_compute; reflexivity|].
  split; [vm_compute; reflexivity|].
  do 7 (split; [vm_compute; reflexivity|]).
  intros Hsorted. inversion_clear Hsorted as [|?? _ Hhd].
  inversion_clear Hhd as [|?? Hle]. vm_compute in Hle. by apply Hle.
Qed.

(** The comparison is not transitive: a tie with an edge that lacks
    [tx_hash] on either side does not order the two edges that carry one.
    The edges of [interleaved_events] stay in input order, each in order
    with its successor, the first strictly after the third. *)
Lemma interleaved_events_order :
  ∃ graphs first second third,
    buildAuthorityGraph codeUnitCompare (ArrayOf interleaved_events)
    = Ok graphs
    ∧ graphs !! "0xABC"
      = Some {| wallet := "0xABC";
                authority_edges := [first; second; third] |}
    ∧ Edge.tx_hash first = Some "0xTXB"
    ∧ Edge.tx_hash second = None
    ∧ Edge.tx_hash third = Some "0xTXA"
    ∧ (0 < compareEdges codeUnitCompare first third)%Z.
Proof.
  eexists _, _, _, _. split; [vm_compute; reflexivity|].
  split; [vm_compute; reflexivity|]. by vm_compute.
Qed.

(** C4, at [masked_events]: the second event lacks its wallet, yet the call
    fails with the [TypeError] of the first event's push, not with the
    missing-field error. *)
Lemma masked_events_TypeError :
  Exists malformed masked_events
  ∧ buildAuthorityGraph codeUnitCompare (ArrayOf masked_events)
    = Throw (TypeError "walletGroups[wallet].push is not a function")
  ∧ ∀ field,
      buildAuthorityGraph codeUnitCompare (ArrayOf masked_events)
      ≠ Throw (MissingFieldError field).
Proof.
  split; [|split].
  - apply Exists_cons_tl, Exists_cons_hd. exists "wallet". left.
    split; [done | by left].
  - reflexivity.
  - intros field. vm_compute. discriminate.
Qed.

End ClaimsOnInputs.

(** The example inputs carry ASCII amounts: what a witness states of them
    with [asciiEngine] holds with every engine
    ([buildAuthorityGraph_engine]). *)
Lemma example_events_asciiAmount :
  Forall asciiAmount
    (sample_events ++ tied_events ++ interleaved_events ++ masked_events
     ++ undated_event :: ordered_events).
Proof. repeat constructor; eexists; split; reflexivity. Qed.

Section ClaimsWitnesses.

Existing Instance asciiEngine.

Lemma normalizeAmount_cases_witness :
  (∀ str, toUpperCase str = "0" → str = "0")
  ∧ normalizeAmount (JsString "max_uint") = "unlimited"
  ∧ normalizeAmount (JsString "1000000") = "1000000".
Proof.
  assert (Hzero : ∀ str, toUpperCase str = "0" → str = "0").
  { intros str. unfold toUpperCase. simpl.
    destruct (allASCII str); [apply toUpperCaseASCII_zero | done]. }
  destruct (normalizeAmount_cases Hzero) as (_ & _ & Hascii & _).
  split; [exact Hzero|]. split.
  - apply (Hascii "max_uint"); [reflexivity|]. left.
    by apply equalUpToCase_toUpperCaseASCII.
  - apply (Hascii "1000000"); [reflexivity|].
    intros [Hmax | [Hunl | Hdec%includes_true_iff]].
    + apply equalUpToCase_toUpperCaseASCII in Hmax. discriminate Hmax.
    + apply equalUpToCase_toUpperCaseASCII in Hunl. discriminate Hunl.
    + discriminate Hdec.
Defined.

Lemma graph_is_lossless_partition_witness :
  ∃ graphs,
    buildAuthorityGraph codeUnitCompare (ArrayOf sample_events) = Ok graphs
    ∧ (∃ edges,
          Forall2 (fun event edge =>
                     ∃ key, buildEdge event = Ok (key, edge))
            sample_events edges
          ∧ graphEdges graphs ≡ₚ edges)
    ∧ (∀ key graph,
          graphs !! key = Some graph →
          wallet graph = key
          ∧ ∃ edges,
              Forall2 (fun event edge => buildEdge event = Ok (key, edge))
                (filter (hasWallet key) sample_events) edges
              ∧ authority_edges graph ≡ₚ edges)
    ∧ (∀ event,
          event ∈ sample_events →
          ∃ key graph,
            Event.wallet event = value key
            ∧ graphs !! key = Some graph).
Proof.
  eexists. split; [vm_compute; reflexivity|].
  apply (graph_is_lossless_partition codeUnitCompare sample_events).
  vm_compute; reflexivity.
Defined.

Lemma revocation_possible_UNKNOWN_witness :
  ∃ graphs graph edge,
    buildAuthorityGraph codeUnitCompare (ArrayOf sample_events) = Ok graphs
    ∧ graphs !! "0xDEF" = Some graph
    ∧ edge ∈ authority_edges graph
    ∧ Edge.revocation_possible edge = "UNKNOWN".
Proof.
  eexists _, _, _. split; [vm_compute; reflexivity|].
  split; [vm_compute; reflexivity|].
  split; [vm_compute; constructor|].
  eapply (revocation_possible_UNKNOWN codeUnitCompare
            (ArrayOf sample_events) _ "0xDEF");
    [vm_compute; reflexivity | vm_compute; reflexivity | vm_compute; constructor].
Defined.

Lemma empty_tx_hash_is_absent_witness :
  ∃ graphs key graph edge,
    buildAuthorityGraph codeUnitCompare (ArrayOf sample_events) = Ok graphs
    ∧ buildEdge (approval "0xDEF" 101 1712345680 (value "") absent)
      = Ok (key, edge)
    ∧ graphs !! key = Some graph
    ∧ edge ∈ authority_edges graph
    ∧ Edge.tx_hash edge = None.
Proof.
  destruct (buildAuthorityGraph codeUnitCompare (ArrayOf sample_events))
    as [graphs|e] eqn:Hbuild; [|vm_compute in Hbuild; discriminate Hbuild].
  destruct (proj2 (proj2 (empty_tx_hash_is_absent codeUnitCompare))
              sample_events graphs
              (approval "0xDEF" 101 1712345680 (value "") absent) Hbuild)
    as (key & graph & edge & Hedge & Hlook & Hmem & Htx).
  - apply list_elem_of_further, list_elem_of_here.
  - reflexivity.
  - exists graphs, key, graph, edge. repeat split; assumption.
Defined.

Lemma log_index_zero_is_kept_witness :
  ∃ graphs key graph edge,
    buildAuthorityGraph codeUnitCompare (ArrayOf sample_events) = Ok graphs
    ∧ buildEdge
        (approval "0xABC" 100 1712345678 (value "0xTX1") (value 0%Z))
      = Ok (key, edge)
    ∧ graphs !! key = Some graph
    ∧ edge ∈ authority_edges graph
    ∧ Edge.log_index edge = Some 0%Z.
Proof.
  destruct (buildAuthorityGraph codeUnitCompare (ArrayOf sample_events))
    as [graphs|e] eqn:Hbuild; [|vm_compute in Hbuild; discriminate Hbuild].
  destruct (proj2 (proj2 (log_index_zero_is_kept codeUnitCompare))
              sample_events graphs
              (approval "0xABC" 100 1712345678 (value "0xTX1") (value 0%Z))
              Hbuild)
    as (key & graph & edge & Hedge & Hlook & Hmem & Hlog).
  - apply list_elem_of_further, list_elem_of_further, list_elem_of_here.
  - reflexivity.
  - exists graphs, key, graph, edge. repeat split; assumption.
Defined.

End ClaimsWitnesses.

(** * Further properties *)

Section Further.

Context {engine : Engine}.

(** ** Acceptance *)

Lemma filed_buildEdge (event : Event.t) :
  filed event ↔
  ∃ key edge, buildEdge event = Ok (key, edge) ∧ inherited key = false.
Proof.
  unfold filed. split.
  - intros [Hwell Hown].
    destruct (buildEdge event) as [[key edge]|e] eqn:Hbuild.
    + exists key, edge. split; [done|]. apply Hown.
      apply buildEdge_Ok in Hbuild as (?&?&?&?&?&Hw&_).
      by apply truthy_Some in Hw as [Hw _].
    + destruct Hwell. apply buildEdge_malformed. by exists e.
  - intros (key & edge & Hbuild & Hinh). split.
    + intros [e He]%buildEdge_malformed. congruence.
    + intros key' Hw.
      apply buildEdge_Ok in Hbuild as (?&?&?&?&?&Hw'&_).
      apply truthy_Some in Hw' as [Hw' _]. congruence.
Qed.

Lemma pushEdge_own (walletGroups : gmap string (list Edge.t))
    (key : string) (edge : Edge.t) :
  inherited key = false →
  ∃ pushed, pushEdge walletGroups key edge = Ok pushed.
Proof.
  intros Hinh. unfold pushEdge. rewrite Hinh.
  destruct (walletGroups !! key); eauto.
Qed.

Lemma groupEvents_filed (events : list Event.t)
    (walletGroups : gmap string (list Edge.t)) :
  Forall filed events →
  ∃ walletGroups', groupEvents events walletGroups = Ok walletGroups'.
Proof.
  intros Hall. revert walletGroups.
  induction Hall as [|event events Hfiled _ IH]; intros walletGroups; simpl.
  - by exists walletGroups.
  - apply filed_buildEdge in Hfiled as (key & edge & -> & Hinh). simpl.
    destruct (pushEdge_own walletGroups key edge Hinh) as [pushed ->]. simpl.
    apply IH.
Qed.

(** From a dictionary without inherited names among its keys, the loop
    succeeds only on events that it files. *)
Lemma groupEvents_Ok_filed (events : list Event.t)
    (walletGroups walletGroups' : gmap string (list Edge.t)) :
  (∀ key, is_Some (walletGroups !! key) → inherited key = false) →
  groupEvents events walletGroups = Ok walletGroups' →
  Forall filed events.
Proof.
  revert walletGroups.
  induction events as [|event events IH]; intros walletGroups Hkeys;
    [constructor|].
  intros (key & edge & pushed & Hbuild & Hpush & Hrest)%groupEvents_cons.
  assert (Hinh : inherited key = false).
  { unfold pushEdge in Hpush.
    destruct (walletGroups !! key) as [edges|] eqn:Hlook.
    - apply Hkeys. by rewrite Hlook.
    - by destruct (inherited key). }
  constructor.
  - apply filed_buildEdge. by exists key, edge.
  - apply (IH pushed); [|done].
    apply pushEdge_lookup in Hpush as ->. intros key' Hsome.
    destruct (decide (key = key')) as [<-|Hne]; [done|].
    rewrite lookup_insert_ne in Hsome by done. by apply Hkeys.
Qed.

Section Acceptance.
Variable localeCompare : string → string → Z.

(** X1. The builder returns a graph exactly for the arrays whose events
    are all complete and carry a wallet that names no inherited property. *)
Theorem buildAuthorityGraph_accepts (events : list Event.t) :
  (∃ graphs, buildAuthorityGraph localeCompare (ArrayOf events) = Ok graphs)
  ↔ Forall filed events.
Proof.
  split.
  - intros [graphs (walletGroups & Hgroups & _)%buildAuthorityGraph_Ok].
    apply (groupEvents_Ok_filed events ∅ walletGroups); [|done].
    intros key [edges Hlook]. by rewrite lookup_empty in Hlook.
  - intros Hall. destruct (groupEvents_filed events ∅ Hall) as [groups Hgroups].
    eexists. apply buildAuthorityGraph_Ok. by exists groups.
Qed.

(** X2. The loop fails fast: after a prefix of filed events, the first event
    that is not filed decides the exception, whatever follows it. *)
Theorem buildAuthorityGraph_first_failure
    (filed_events rest : list Event.t) (event : Event.t) :
  Forall filed filed_events →
  ¬ filed event →
  match buildEdge event with
  | Throw e =>
      buildAuthorityGraph localeCompare
        (ArrayOf (filed_events ++ event :: rest)) = Throw e
  | Ok _ =>
      buildAuthorityGraph localeCompare
        (ArrayOf (filed_events ++ event :: rest))
      = Throw (TypeError "walletGroups[wallet].push is not a function")
  end.
Proof.
  intros Hprefix Hnot.
  assert (Hloop : ∀ walletGroups,
    (∀ key, is_Some (walletGroups !! key) → inherited key = false) →
    groupEvents (filed_events ++ event :: rest) walletGroups
    = match buildEdge event with
      | Throw e => Throw e
      | Ok _ => Throw (TypeError "walletGroups[wallet].push is not a function")
      end).
  { induction Hprefix as [|first filed_events Hfirst _ IH];
      intros walletGroups Hkeys; simpl.
    - destruct (buildEdge event) as [[key edge]|e] eqn:Hbuild; simpl; [|done].
      assert (Hinh : inherited key = true).
      { destruct (inherited key) eqn:Hinh; [done|].
        destruct Hnot. apply filed_buildEdge. by exists key, edge. }
      unfold pushEdge. rewrite Hinh.
      destruct (walletGroups !! key) as [edges|] eqn:Hlook; [|done].
      rewrite Hkeys in Hinh; [done | by rewrite Hlook].
    - apply filed_buildEdge in Hfirst as (key & edge & -> & Hinh). simpl.
      destruct (pushEdge_own walletGroups key edge Hinh) as [pushed Hpush].
      rewrite Hpush. simpl. apply IH.
      apply pushEdge_lookup in Hpush as ->. intros key' Hsome.
      destruct (decide (key = key')) as [<-|Hne]; [done|].
      rewrite lookup_insert_ne in Hsome by done. by apply Hkeys. }
  specialize (Hloop ∅).
  destruct (buildEdge event); apply buildAuthorityGraph_Throw, Hloop;
    intros key [edges Hlook]; by rewrite lookup_empty in Hlook.
Qed.
End Acceptance.

(** X3. Validation reports the first field, in the order of the tests, that
    the event lacks. *)
Theorem buildEdge_first_missing (event : Event.t) (e : Exception) :
  buildEdge event = Throw e →
  ∃ earlier field later,
    requiredFields = earlier ++ field :: later
    ∧ e = MissingFieldError field
    ∧ offending field event
    ∧ ∀ name, name ∈ earlier → ¬ offending name event.
Proof.
  unfold buildEdge.
  destruct (truthy (Event.wallet event)) eqn:Hw; simpl.
  2:{ intros [= <-]. exists [], "wallet", (tail requiredFields).
      split; [done|]. split; [done|]. apply truthy_None in Hw.
      split; [left; done | by intros name ?%elem_of_nil]. }
  destruct (truthy (Event.contract event)) eqn:Hc; simpl.
  2:{ intros [= <-]. exists (take 1 requiredFields), "contract",
        (drop 2 requiredFields).
      split; [done|]. split; [done|]. apply truthy_None in Hc.
      split; [right; left; done|].
      intros name Hname Hoff. apply truthy_Some in Hw as [Hw Hne].
      unfold offending, empty_or_missing in Hoff. rewrite Hw in Hoff.
      set_unfold in Hname. destruct Hname as [->|[]].
      intuition congruence. }
  destruct (truthy (Event.authority_type event)) eqn:Ha; simpl.
  2:{ intros [= <-]. exists (take 2 requiredFields), "authority_type",
        (drop 3 requiredFields).
      split; [done|]. split; [done|]. apply truthy_None in Ha.
      split; [right; right; left; done|].
      intros name Hname Hoff.
      apply truthy_Some in Hw as [Hw Hne], Hc as [Hc Hnec].
      unfold offending, empty_or_missing in Hoff. rewrite Hw, Hc in Hoff.
      set_unfold in Hname. destruct Hname as [->|[->|[]]];
      intuition congruence. }
  destruct (truthy (Event.target_entity event)) eqn:Ht; simpl.
  2:{ intros [= <-]. exists (take 3 requiredFields), "target_entity",
        (drop 4 requiredFields).
      split; [done|]. split; [done|]. apply truthy_None in Ht.
      split; [right; right; right; left; done|].
      intros name Hname Hoff.
      apply truthy_Some in Hw as [Hw Hne], Hc as [Hc Hnec], Ha as [Ha Hnea].
      unfold offending, empty_or_missing in Hoff. rewrite Hw, Hc, Ha in Hoff.
      set_unfold in Hname. destruct Hname as [->|[->|[->|[]]]];
      intuition congruence. }
  destruct (defined (Event.block event)) eqn:Hb; simpl.
  2:{ intros [= <-]. exists (take 4 requiredFields), "block",
        (drop 5 requiredFields).
      split; [done|]. split; [done|]. apply defined_None in Hb.
      split; [right; right; right; right; left; done|].
      intros name Hname Hoff.
      apply truthy_Some in Hw as [Hw Hne], Hc as [Hc Hnec], Ha as [Ha Hnea],
        Ht as [Ht Hnet].
      unfold offending, empty_or_missing in Hoff.
      rewrite Hw, Hc, Ha, Ht in Hoff.
      set_unfold in Hname. destruct Hname as [->|[->|[->|[->|[]]]]];
      intuition congruence. }
  destruct (defined (Event.timestamp event)) eqn:Hts; simpl; [done|].
  intros [= <-]. exists (take 5 requiredFields), "timestamp", [].
  split; [done|]. split; [done|]. apply defined_None in Hts.
  split; [right; right; right; right; right; done|].
  intros name Hname Hoff.
  apply truthy_Some in Hw as [Hw Hne], Hc as [Hc Hnec], Ha as [Ha Hnea],
    Ht as [Ht Hnet].
  apply defined_Some in Hb.
  unfold offending, empty_or_missing, missing_or_null in Hoff.
  rewrite Hw, Hc, Ha, Ht, Hb in Hoff.
  set_unfold in Hname. destruct Hname as [->|[->|[->|[->|[->|[]]]]]];
  intuition congruence.
Qed.

(** ** Arrays that are sorted already *)

Section ArraySortOrdered.
Context {A : Type} (comparefn : A → A → Z).

Lemma Sorted_app_adjacent (R : A → A → Prop) (before after : list A) (a b : A) :
  Sorted R (before ++ a :: b :: after) → R a b.
Proof.
  induction before as [|x before IH]; simpl; intros Hs.
  - apply Sorted_inv in Hs as [_ Hhd]. by inversion_clear Hhd.
  - apply Sorted_inv in Hs as [Hs _]. by apply IH.
Qed.

Lemma fold_shift_in_ordered (array sorted : list A) :
  Sorted (ordered comparefn) (reverse sorted ++ array) →
  fold_left (fun sorted element => shift_in comparefn element sorted)
    array sorted
  = reverse array ++ sorted.
Proof.
  revert sorted. induction array as [|x array IH]; intros sorted Hs; simpl.
  - done.
  - assert (Hshift : shift_in comparefn x sorted = x :: sorted).
    { destruct sorted as [|tmp sorted]; simpl; [done|].
      rewrite reverse_cons, <-app_assoc in Hs. simpl in Hs.
      apply Sorted_app_adjacent in Hs. unfold ordered in Hs.
      destruct (Z.ltb_spec 0 (comparefn tmp x)); [lia | done]. }
    rewrite Hshift, IH.
    + by rewrite reverse_cons, <-app_assoc.
    + by rewrite reverse_cons, <-app_assoc.
Qed.

Lemma Array_sort_ordered (array : list A) :
  Sorted (ordered comparefn) array → Array_sort comparefn array = array.
Proof.
  intros Hs. unfold Array_sort.
  rewrite fold_shift_in_ordered by (by rewrite reverse_nil).
  by rewrite app_nil_r, reverse_involutive.
Qed.
End ArraySortOrdered.

Lemma edgesOf_builtEdges (key : string) (events : list Event.t) :
  Forall buildsEdge events →
  edgesOf key events = builtEdges (filter (hasWallet key) events).
Proof.
  induction 1 as [|event events (w & edge & Hbuild) _ IH]; [done|].
  rewrite filter_cons, edgesOf_cons. unfold edgeFor. rewrite Hbuild.
  pose proof Hbuild as (_&_&_&_&_&Hw&_)%buildEdge_Ok.
  apply truthy_Some in Hw as [Hw _].
  destruct (decide (w = key)) as [->|Hne].
  - rewrite decide_True by done. unfold builtEdges at 1. simpl.
    rewrite Hbuild. simpl. by rewrite IH.
  - rewrite decide_False; [done|]. unfold hasWallet. congruence.
Qed.

Lemma buildEdge_dropNullOptionals (event : Event.t) :
  buildEdge (dropNullOptionals event) = buildEdge event.
Proof.
  unfold buildEdge, dropNullOptionals. simpl.
  by destruct (Event.tx_hash event), (Event.log_index event).
Qed.

Lemma size_le_graphEdges (graphs : gmap string WalletGraph) :
  (∀ key graph, graphs !! key = Some graph → authority_edges graph ≠ []) →
  (size graphs ≤ length (graphEdges graphs))%nat.
Proof.
  induction graphs as [|key graph graphs Hnone IH] using map_ind; intros Hne.
  - by rewrite map_size_empty.
  - rewrite map_size_insert_None by done.
    assert (Hperm : graphEdges (<[key:=graph]> graphs)
                    ≡ₚ authority_edges graph ++ graphEdges graphs).
    { unfold graphEdges. by rewrite map_to_list_insert by done. }
    rewrite (Permutation_length Hperm), length_app.
    assert (authority_edges graph ≠ []) as Hgraph
      by (apply (Hne key); apply lookup_insert_eq).
    assert (size graphs ≤ length (graphEdges graphs))%nat as Hsize.
    { apply IH. intros key' graph' Hlook. apply (Hne key').
      rewrite lookup_insert_ne; [done|]. intros ->. congruence. }
    destruct (authority_edges graph); [done|]. simpl. lia.
Qed.

(** ** The graphs of an accepted array *)

Section Graphs.
Variable localeCompare : string → string → Z.

Lemma graphEdges_length (events : list Event.t)
    (graphs : gmap string WalletGraph) :
  buildAuthorityGraph localeCompare (ArrayOf events) = Ok graphs →
  length (graphEdges graphs) = length events.
Proof.
  intros Hbuild.
  pose proof (buildAuthorityGraph_buildsEdge _ _ _ Hbuild) as Hall.
  apply buildAuthorityGraph_Ok in Hbuild as (walletGroups & Hgroups & ->).
  rewrite (Permutation_length (graphEdges_buildResults _)).
  rewrite (Permutation_length
             (allEdges_fmap _ _ (Array_sort_Permutation _))).
  rewrite (Permutation_length (groupEvents_allEdges _ _ _ Hgroups)).
  unfold allEdges. rewrite map_to_list_empty. simpl.
  symmetry. exact (Forall2_length _ _ _ (builtEdges_Forall2 events Hall)).
Qed.

(** X4. The keys of the result are the wallets of the events; no graph is
    empty, and there are at most as many graphs as events. *)
Theorem graph_keys (events : list Event.t) (graphs : gmap string WalletGraph) :
  buildAuthorityGraph localeCompare (ArrayOf events) = Ok graphs →
  (∀ key, is_Some (graphs !! key)
          ↔ ∃ event, event ∈ events ∧ Event.wallet event = value key)
  ∧ (∀ key graph, graphs !! key = Some graph → authority_edges graph ≠ [])
  ∧ (size graphs ≤ length events)%nat.
Proof.
  intros Hbuild.
  pose proof (buildAuthorityGraph_buildsEdge _ _ _ Hbuild) as Hall.
  split; [|split].
  - intros key. split.
    + intros [graph Hlook].
      pose proof (buildAuthorityGraph_lookup _ _ _ key Hbuild) as Hkey.
      rewrite Hlook in Hkey.
      destruct (edgesOf key events) as [|edge edges] eqn:Hedges; [done|].
      destruct (edgesOf_inv key edge events) as (event & Hin & Hedge).
      { rewrite Hedges. by left. }
      exists event. split; [done|].
      apply buildEdge_Ok in Hedge as (?&?&?&?&?&Hw&_).
      by apply truthy_Some in Hw as [Hw _].
    + intros (event & Hin & Hw).
      destruct (buildAuthorityGraph_event _ _ _ _ Hbuild Hin)
        as (key' & graph & edge & Hedge & Hlook & _).
      apply buildEdge_Ok in Hedge as (?&?&?&?&?&Hw'&_).
      apply truthy_Some in Hw' as [Hw' _].
      assert (key' = key) as -> by congruence. by exists graph.
  - intros key graph Hlook Hnil.
    rewrite (buildAuthorityGraph_lookup _ _ _ key Hbuild) in Hlook.
    destruct (edgesOf key events) as [|edge edges]; [done|].
    injection Hlook as <-. simpl in Hnil.
    apply (f_equal length) in Hnil.
    rewrite (Permutation_length (Array_sort_Permutation _ _)) in Hnil.
    done.
  - rewrite <-(graphEdges_length _ _ Hbuild).
    apply size_le_graphEdges. intros key graph Hlook Hnil.
    rewrite (buildAuthorityGraph_lookup _ _ _ key Hbuild) in Hlook.
    destruct (edgesOf key events) as [|edge edges]; [done|].
    injection Hlook as <-. simpl in Hnil.
    apply (f_equal length) in Hnil.
    rewrite (Permutation_length (Array_sort_Permutation _ _)) in Hnil.
    done.
Qed.

(** X5. Every edge of the graph under a wallet copies the fields of an
    event of that wallet: type, contract, target, block and timestamp as
    they are, the amount normalised, [tx_hash] and [log_index] when it has
    them; its type, contract and target are never empty. *)
Theorem edge_copies_event (events : list Event.t)
    (graphs : gmap string WalletGraph) (key : string) (graph : WalletGraph)
    (edge : Edge.t) :
  buildAuthorityGraph localeCompare (ArrayOf events) = Ok graphs →
  graphs !! key = Some graph →
  edge ∈ authority_edges graph →
  ∃ event,
    event ∈ events
    ∧ Event.wallet event = value key
    ∧ Event.authority_type event = value (Edge.type edge)
    ∧ Event.contract event = value (Edge.contract edge)
    ∧ Event.target_entity event = value (Edge.target_entity edge)
    ∧ Event.block event = value (Edge.block edge)
    ∧ Event.timestamp event = value (Edge.timestamp edge)
    ∧ Edge.amount edge = normalizeAmount (Event.amount event)
    ∧ (∀ hash, Edge.tx_hash edge = Some hash
               → Event.tx_hash event = value hash ∧ hash ≠ "")
    ∧ (∀ index, Edge.log_index edge = Some index
                → Event.log_index event = value index)
    ∧ Edge.type edge ≠ "" ∧ Edge.contract edge ≠ ""
    ∧ Edge.target_entity edge ≠ "".
Proof.
  intros Hbuild Hlook Hin.
  destruct (buildAuthorityGraph_edge _ _ _ _ _ _ Hbuild Hlook Hin)
    as (event & Hevent & Hedge).
  exists event. split; [done|].
  apply buildEdge_Ok in Hedge
    as (contract & type & target & block & timestamp
        & Hw & Hc & Ha & Ht & Hb & Hts & ->).
  apply truthy_Some in Hw as [Hw _], Hc as [Hc Hcontract], Ha as [Ha Htype],
    Ht as [Ht Htarget].
  apply defined_Some in Hb, Hts. simpl.
  do 7 (split; [done|]).
  split; [intros hash Hhash; by apply truthy_Some|].
  split; [intros index Hindex; by apply defined_Some|].
  done.
Qed.

(** X6. Events that arrive in the order of the comparison function leave
    in the order they arrived. *)
Theorem ordered_input_is_kept (events : list Event.t)
    (graphs : gmap string WalletGraph) (key : string) (graph : WalletGraph) :
  buildAuthorityGraph localeCompare (ArrayOf events) = Ok graphs →
  graphs !! key = Some graph →
  Sorted (ordered (compareEdges localeCompare)) (edgesOf key events) →
  authority_edges graph = edgesOf key events.
Proof.
  intros Hbuild Hlook Hsorted.
  rewrite (buildAuthorityGraph_lookup_Some _ _ _ _ _ Hbuild Hlook). simpl.
  by apply Array_sort_ordered.
Qed.

(** X7. The graph of a wallet depends on the events of that wallet only. *)
Theorem wallet_graph_is_local (events events' : list Event.t)
    (graphs graphs' : gmap string WalletGraph) (key : string) :
  buildAuthorityGraph localeCompare (ArrayOf events) = Ok graphs →
  buildAuthorityGraph localeCompare (ArrayOf events') = Ok graphs' →
  filter (hasWallet key) events = filter (hasWallet key) events' →
  graphs !! key = graphs' !! key.
Proof.
  intros Hbuild Hbuild' Hsame.
  rewrite (buildAuthorityGraph_lookup _ _ _ key Hbuild).
  rewrite (buildAuthorityGraph_lookup _ _ _ key Hbuild').
  rewrite !edgesOf_builtEdges, Hsame; [done|..];
    by eapply buildAuthorityGraph_buildsEdge.
Qed.

(** X8. A [null] [tx_hash] or [log_index] is handled as a missing one. *)
Theorem null_optionals_are_absent (events : list Event.t) :
  buildAuthorityGraph localeCompare (ArrayOf (dropNullOptionals <$> events))
  = buildAuthorityGraph localeCompare (ArrayOf events).
Proof.
  apply buildAuthorityGraph_ext.
  apply Forall2_fmap_l, Forall_Forall2_diag, Forall_forall.
  intros event _. apply buildEdge_dropNullOptionals.
Qed.
End Graphs.

(** ** Reordered input *)

Section ArraySortUnique.
Context {A : Type} (comparefn : A → A → Z).

Lemma Sorted_restrict (R : A → A → Prop) (P : A → Prop) (l : list A) :
  Sorted R l → Forall P l → Sorted (fun a b => P a ∧ P b ∧ R a b) l.
Proof.
  induction 1 as [|a l _ IH Hhd]; intros Hall; [constructor|].
  apply Forall_cons in Hall as [Ha Hl]. constructor; [by apply IH|].
  destruct Hhd as [|b l Hab]; constructor.
  apply Forall_cons in Hl as [Hb _]. done.
Qed.

(** Where the comparison is transitive and ties identical elements only,
    the result does not depend on the order of the array. *)
Lemma Array_sort_Permutation_eq (array array' : list A) :
  (∀ a b, (0 < comparefn a b)%Z → (comparefn b a ≤ 0)%Z) →
  (∀ a b c, a ∈ array → b ∈ array → c ∈ array →
            (comparefn a b ≤ 0)%Z → (comparefn b c ≤ 0)%Z →
            (comparefn a c ≤ 0)%Z) →
  (∀ a b, a ∈ array → b ∈ array →
          (comparefn a b ≤ 0)%Z → (comparefn b a ≤ 0)%Z → a = b) →
  array ≡ₚ array' →
  Array_sort comparefn array = Array_sort comparefn array'.
Proof.
  intros Hanti Htrans Hstrict Hperm.
  set (R := fun a b => a ∈ array ∧ b ∈ array ∧ ordered comparefn a b).
  assert (HR : Transitive R).
  { intros a b c (Ha & Hb & Hab) (_ & Hc & Hbc).
    split; [done|]. split; [done|]. by apply (Htrans a b c). }
  apply (Sorted_unique_strong R).
  - intros a b _ _ (Ha & Hb & Hab) (_ & _ & Hba). by apply Hstrict.
  - apply Sorted_restrict; [by apply Array_sort_Sorted|].
    apply Forall_forall. intros a Ha.
    by rewrite Array_sort_Permutation in Ha.
  - apply Sorted_restrict; [by apply Array_sort_Sorted|].
    apply Forall_forall. intros a Ha.
    by rewrite Array_sort_Permutation, <-Hperm in Ha.
  - by rewrite !Array_sort_Permutation.
Qed.
End ArraySortUnique.

Section SingleWallet.
Variable localeCompare : string → string → Z.

(** X9. Reordering the input leaves the graph of a wallet unchanged when,
    on the edges of that wallet, the comparison is transitive and ties
    identical edges only. *)
Theorem input_order_is_irrelevant
    (localeCompare_antisym :
       ∀ s t, (0 < localeCompare s t)%Z → (localeCompare t s ≤ 0)%Z)
    (events events' : list Event.t) (graphs : gmap string WalletGraph)
    (key : string) :
  events ≡ₚ events' →
  buildAuthorityGraph localeCompare (ArrayOf events) = Ok graphs →
  (∀ a b c,
      a ∈ edgesOf key events → b ∈ edgesOf key events →
      c ∈ edgesOf key events →
      (compareEdges localeCompare a b ≤ 0)%Z →
      (compareEdges localeCompare b c ≤ 0)%Z →
      (compareEdges localeCompare a c ≤ 0)%Z) →
  (∀ a b,
      a ∈ edgesOf key events → b ∈ edgesOf key events →
      (compareEdges localeCompare a b ≤ 0)%Z →
      (compareEdges localeCompare b a ≤ 0)%Z → a = b) →
  ∃ graphs',
    buildAuthorityGraph localeCompare (ArrayOf events') = Ok graphs'
    ∧ graphs' !! key = graphs !! key.
Proof.
  intros Hperm Hbuild Htrans Hstrict.
  assert (Hfiled : Forall filed events').
  { rewrite <-Hperm.
    apply buildAuthorityGraph_Ok in Hbuild as (walletGroups & Hgroups & _).
    apply (groupEvents_Ok_filed events ∅ walletGroups); [|done].
    intros k [edges Hlook]. by rewrite lookup_empty in Hlook. }
  destruct (groupEvents_filed events' ∅ Hfiled) as [groups' Hgroups'].
  assert (Hbuild' :
    buildAuthorityGraph localeCompare (ArrayOf events')
    = Ok (buildResults
            (Array_sort (compareEdges localeCompare) <$> groups'))).
  { apply buildAuthorityGraph_Ok. by exists groups'. }
  eexists. split; [exact Hbuild'|].
  rewrite (buildAuthorityGraph_lookup _ _ _ key Hbuild).
  rewrite (buildAuthorityGraph_lookup _ _ _ key Hbuild').
  assert (Hedges : edgesOf key events ≡ₚ edgesOf key events').
  { unfold edgesOf. by rewrite Hperm. }
  pose proof (Array_sort_Permutation_eq (compareEdges localeCompare)
                (edgesOf key events) (edgesOf key events')
                (compareEdges_antisym _ localeCompare_antisym)
                Htrans Hstrict Hedges) as Hsort.
  destruct (edgesOf key events) as [|edge edges],
    (edgesOf key events') as [|edge' edges'].
  - done.
  - by apply Permutation_nil_l in Hedges.
  - by apply Permutation_nil_r in Hedges.
  - by rewrite Hsort.
Qed.

(** The single-wallet builder, in terms of the entries of the result. *)
Lemma buildSingleWalletGraph_keys (input : JsInput)
    (graphs : gmap string WalletGraph) :
  buildAuthorityGraph localeCompare input = Ok graphs →
  buildSingleWalletGraph localeCompare input
  = match map_to_list graphs with
    | [] => Throw NoEventsError
    | [(key, graph)] => Ok (Some graph)
    | _ :: _ :: _ => Throw MultipleWalletsError
    end.
Proof.
  intros Hbuild. unfold buildSingleWalletGraph, Object_keys.
  rewrite Hbuild. simpl.
  destruct (map_to_list graphs) as [|[key graph] [|second rest]] eqn:Hlist;
    simpl; try done.
  assert (Hsingle : graphs = {[key := graph]}).
  { apply map_to_list_inj. by rewrite Hlist, map_to_list_singleton. }
  by rewrite Hsingle, lookup_singleton_eq.
Qed.

(** X10. On an accepted array, the single-wallet builder throws the
    no-events error exactly for the empty array and the multiple-wallets
    error exactly when two events differ in their wallet; when all events
    share one wallet it returns that wallet with the sorted edges of all
    the events. *)
Theorem buildSingleWalletGraph_accepted (events : list Event.t)
    (graphs : gmap string WalletGraph) :
  buildAuthorityGraph localeCompare (ArrayOf events) = Ok graphs →
  (buildSingleWalletGraph localeCompare (ArrayOf events) = Throw NoEventsError
   ↔ events = [])
  ∧ (buildSingleWalletGraph localeCompare (ArrayOf events)
     = Throw MultipleWalletsError
     ↔ ∃ first second,
         first ∈ events ∧ second ∈ events
         ∧ Event.wallet first ≠ Event.wallet second)
  ∧ (∀ key,
        events ≠ [] → Forall (hasWallet key) events →
        buildSingleWalletGraph localeCompare (ArrayOf events)
        = Ok (Some {| wallet := key;
                      authority_edges :=
                        Array_sort (compareEdges localeCompare)
                          (builtEdges events) |})).
Proof.
  intros Hbuild.
  pose proof (buildAuthorityGraph_buildsEdge _ _ _ Hbuild) as Hall.
  rewrite (buildSingleWalletGraph_keys _ _ Hbuild).
  assert (Hwallet : ∀ event, event ∈ events →
    ∃ key graph, Event.wallet event = value key ∧ graphs !! key = Some graph).
  { intros event Hin.
    destruct (buildAuthorityGraph_event _ _ _ _ Hbuild Hin)
      as (key & graph & edge & Hedge & Hlook & _).
    exists key, graph. split; [|done].
    apply buildEdge_Ok in Hedge as (?&?&?&?&?&Hw&_).
    by apply truthy_Some in Hw as [Hw _]. }
  assert (Hkey : ∀ key graph, graphs !! key = Some graph →
    ∃ event, event ∈ events ∧ Event.wallet event = value key).
  { intros key graph Hlook.
    pose proof (buildAuthorityGraph_lookup _ _ _ key Hbuild) as Hk.
    rewrite Hlook in Hk.
    destruct (edgesOf key events) as [|edge edges] eqn:Hedges; [done|].
    destruct (edgesOf_inv key edge events) as (event & Hin & Hedge).
    { rewrite Hedges. by left. }
    exists event. split; [done|].
    apply buildEdge_Ok in Hedge as (?&?&?&?&?&Hw&_).
    by apply truthy_Some in Hw as [Hw _]. }
  destruct (map_to_list graphs) as [|[key graph] [|[key2 graph2] rest]]
    eqn:Hlist.
  - apply map_to_list_empty_iff in Hlist as ->.
    assert (Hnil : events = []).
    { destruct events as [|event events]; [done|].
      destruct (Hwallet event) as (k & g & _ & Hlook); [by left|].
      by rewrite lookup_empty in Hlook. }
    split; [done|]. split.
    + split; [done|]. intros (first & _ & Hin & _). rewrite Hnil in Hin.
      by apply elem_of_nil in Hin.
    + intros k Hne. done.
  - assert (Hsingle : graphs = {[key := graph]}).
    { apply map_to_list_inj. by rewrite Hlist, map_to_list_singleton. }
    assert (Hsame : ∀ event, event ∈ events → Event.wallet event = value key).
    { intros event Hin. destruct (Hwallet event Hin) as (k & g & Hw & Hlook).
      rewrite Hsingle in Hlook. apply lookup_singleton_Some in Hlook as [<- _].
      done. }
    split; [|split].
    + split; [done|]. intros ->.
      destruct (Hkey key graph) as (event & Hin & _);
        [by rewrite Hsingle, lookup_singleton_eq|].
      by apply elem_of_nil in Hin.
    + split; [done|]. intros (first & second & Hin1 & Hin2 & Hne).
      by rewrite (Hsame first), (Hsame second) in Hne.
    + intros k Hne Hk. f_equal. f_equal.
      assert (k = key) as ->.
      { destruct events as [|event events]; [done|].
        apply Forall_cons in Hk as [Hk _]. unfold hasWallet in Hk.
        rewrite (Hsame event) in Hk by (by left). congruence. }
      assert (Hlook : graphs !! key = Some graph)
        by (by rewrite Hsingle, lookup_singleton_eq).
      rewrite (buildAuthorityGraph_lookup_Some _ _ _ _ _ Hbuild Hlook).
      rewrite (edgesOf_builtEdges key events Hall).
      f_equal. f_equal. f_equal. clear -Hk.
      induction Hk as [|event events Hev _ IH]; [done|].
      by rewrite filter_cons, decide_True, IH.
  - assert (Hne : key ≠ key2).
    { pose proof (NoDup_fst_map_to_list graphs) as Hnodup.
      rewrite Hlist in Hnodup. simpl in Hnodup.
      apply NoDup_cons in Hnodup as [Hnotin _]. intros ->.
      apply Hnotin. by left. }
    assert (Hlook1 : graphs !! key = Some graph).
    { apply elem_of_map_to_list. rewrite Hlist. by left. }
    assert (Hlook2 : graphs !! key2 = Some graph2).
    { apply elem_of_map_to_list. rewrite Hlist. right. by left. }
    destruct (Hkey _ _ Hlook1) as (first & Hin1 & Hw1).
    destruct (Hkey _ _ Hlook2) as (second & Hin2 & Hw2).
    split; [|split].
    + split; [intros [= H]; discriminate H|].
      intros ->. by apply elem_of_nil in Hin1.
    + split; [|done]. intros _. exists first, second.
      split; [done|]. split; [done|]. congruence.
    + intros k _ Hk. rewrite Forall_forall in Hk.
      pose proof (Hk first Hin1) as H1. pose proof (Hk second Hin2) as H2.
      unfold hasWallet in H1, H2. congruence.
Qed.
End SingleWallet.

(** ** Amounts that are kept *)

Lemma length_append (s t : string) :
  String.length (s +:+ t) = (String.length s + String.length t)%nat.
Proof. induction s as [|c s IH]; simpl; [done | by rewrite IH]. Qed.

Lemma append_empty_r (s : string) : s +:+ "" = s.
Proof. induction s as [|c s IH]; [done|]. exact (f_equal (String c) IH). Qed.

Lemma length_zero (s : string) : String.length s = 0 → s = "".
Proof. by destruct s. Qed.

(** X11. An ASCII string of at most 78 characters is returned as it is,
    unless it spells MAX_UINT or UNLIMITED, in any case of the letters, or
    is the decimal 2^256 - 1: within that length the substring test can only
    succeed by equality. *)
Theorem short_amount_is_kept (amount : string) :
  allASCII amount = true →
  (String.length amount ≤ 78)%nat →
  ¬ equalUpToCase amount "MAX_UINT" →
  ¬ equalUpToCase amount "UNLIMITED" →
  amount ≠ MAX_UINT256 →
  normalizeAmount (JsString amount) = amount.
Proof.
  intros Hascii Hlen Hmax Hunl Hdec.
  apply (normalizeAmount_ASCII amount Hascii).
  intros [? | [? | (before & after & Hsub)]]; [done..|].
  apply (f_equal String.length) in Hsub as Hl.
  rewrite !length_append in Hl.
  change (String.length MAX_UINT256) with 78 in Hl.
  assert (before = "") as -> by (apply length_zero; lia).
  assert (after = "") as -> by (apply length_zero; lia).
  destruct Hdec. rewrite Hsub. exact (append_empty_r MAX_UINT256).
Qed.

(** ** The tree view *)

Lemma foldl_countEdge (stats : TreeStats) (edges : list Edge.t) :
  totalWallets (foldl countEdge stats edges) = totalWallets stats
  ∧ totalEdges (foldl countEdge stats edges) = totalEdges stats
  ∧ totalContracts (foldl countEdge stats edges)
    = list_to_set (Edge.contract <$> edges) ∪ totalContracts stats
  ∧ totalTargets (foldl countEdge stats edges)
    = list_to_set (Edge.target_entity <$> edges) ∪ totalTargets stats.
Proof.
  revert stats. induction edges as [|edge edges IH]; intros stats; csimpl.
  - by rewrite !(left_id_L ∅ (∪)).
  - destruct (IH (countEdge stats edge)) as (-> & -> & -> & ->). simpl.
    rewrite !(assoc_L (∪)).
    rewrite (comm_L (∪) (list_to_set (Edge.contract <$> edges))).
    by rewrite (comm_L (∪) (list_to_set (Edge.target_entity <$> edges))).
Qed.

Lemma foldl_countWallet (stats : TreeStats)
    (entries : list (string * WalletGraph)) :
  totalWallets (foldl countWallet stats entries)
  = (totalWallets stats + length entries)%nat
  ∧ totalEdges (foldl countWallet stats entries)
    = (totalEdges stats
       + length (mjoin (authority_edges <$> entries.*2)))%nat
  ∧ totalContracts (foldl countWallet stats entries)
    = list_to_set (Edge.contract <$> mjoin (authority_edges <$> entries.*2))
      ∪ totalContracts stats
  ∧ totalTargets (foldl countWallet stats entries)
    = list_to_set
        (Edge.target_entity <$> mjoin (authority_edges <$> entries.*2))
      ∪ totalTargets stats.
Proof.
  revert stats. induction entries as [|[key graph] entries IH];
    intros stats; simpl.
  - rewrite !(left_id_L ∅ (∪)). repeat split; lia.
  - destruct (IH (countWallet stats (key, graph))) as (-> & -> & -> & ->).
    unfold countWallet. simpl.
    destruct (foldl_countEdge
      {| totalWallets := S (totalWallets stats);
         totalEdges := totalEdges stats + length (authority_edges graph);
         totalContracts := totalContracts stats;
         totalTargets := totalTargets stats |} (authority_edges graph))
      as (-> & -> & -> & ->). simpl.
    rewrite length_app, !fmap_app, !list_to_set_app_L, !(assoc_L (∪)).
    rewrite (comm_L (∪) (list_to_set (Edge.contract <$> mjoin _))).
    rewrite (comm_L (∪) (list_to_set (Edge.target_entity <$> mjoin _))).
    unfold fmap. repeat split; lia.
Qed.

Lemma fieldValues_builtEdges (events : list Event.t) :
  Forall buildsEdge events →
  Edge.contract <$> builtEdges events = fieldValues Event.contract events
  ∧ Edge.target_entity <$> builtEdges events
    = fieldValues Event.target_entity events.
Proof.
  induction 1 as [|event events (key & edge & Hbuild) _ [IHc IHt]]; [done|].
  unfold builtEdges, fieldValues in *. csimpl. rewrite Hbuild. csimpl.
  apply buildEdge_Ok in Hbuild as (?&?&?&?&?&_&Hc&_&Ht&_&_&->).
  apply truthy_Some in Hc as [-> _], Ht as [-> _]. csimpl.
  by rewrite IHc, IHt.
Qed.

Section TreeView.
Variable localeCompare : string → string → Z.

Lemma buildAuthorityGraph_dom (events : list Event.t)
    (graphs : gmap string WalletGraph) :
  buildAuthorityGraph localeCompare (ArrayOf events) = Ok graphs →
  dom graphs = list_to_set (fieldValues Event.wallet events).
Proof.
  intros Hbuild. apply set_eq. intros key.
  rewrite elem_of_dom, elem_of_list_to_set.
  unfold fieldValues. rewrite list_elem_of_omap. split.
  - intros [graph Hlook].
    pose proof (buildAuthorityGraph_lookup _ _ _ key Hbuild) as Hkey.
    rewrite Hlook in Hkey.
    destruct (edgesOf key events) as [|edge edges] eqn:Hedges; [done|].
    destruct (edgesOf_inv key edge events) as (event & Hin & Hedge).
    { rewrite Hedges. by left. }
    exists event. split; [done|].
    apply buildEdge_Ok in Hedge as (?&?&?&?&?&Hw&_).
    apply truthy_Some in Hw as [Hw _]. by rewrite Hw.
  - intros (event & Hin & Hw%defined_Some).
    destruct (buildAuthorityGraph_event _ _ _ _ Hbuild Hin)
      as (key' & graph & edge & Hedge & Hlook & _).
    apply buildEdge_Ok in Hedge as (?&?&?&?&?&Hw'&_).
    apply truthy_Some in Hw' as [Hw' _].
    assert (key' = key) as -> by congruence. by exists graph.
Qed.

(** X12. For the graph built from an accepted array, the tree view counts
    one edge per event and one wallet per distinct wallet field, and its
    sets of contracts and targets are those of the events. *)
Theorem treeStatistics_of_built_graph (events : list Event.t)
    (graphs : gmap string WalletGraph) :
  buildAuthorityGraph localeCompare (ArrayOf events) = Ok graphs →
  totalWallets (treeStatistics graphs)
  = size (list_to_set (fieldValues Event.wallet events) : gset string)
  ∧ totalEdges (treeStatistics graphs) = length events
  ∧ totalContracts (treeStatistics graphs)
    = list_to_set (fieldValues Event.contract events)
  ∧ totalTargets (treeStatistics graphs)
    = list_to_set (fieldValues Event.target_entity events).
Proof.
  intros Hbuild. unfold treeStatistics.
  destruct (foldl_countWallet
    {| totalWallets := 0; totalEdges := 0;
       totalContracts := ∅; totalTargets := ∅ |} (map_to_list graphs))
    as (-> & -> & -> & ->). simpl.
  pose proof (buildAuthorityGraph_buildsEdge _ _ _ Hbuild) as Hall.
  destruct (fieldValues_builtEdges events Hall) as [<- <-].
  assert (Hperm : graphEdges graphs ≡ₚ builtEdges events).
  { apply buildAuthorityGraph_Ok in Hbuild as (walletGroups & Hgroups & ->).
    rewrite graphEdges_buildResults.
    rewrite allEdges_fmap by apply Array_sort_Permutation.
    rewrite (groupEvents_allEdges _ _ _ Hgroups).
    unfold allEdges. by rewrite map_to_list_empty. }
  fold (graphEdges graphs). split; [|split; [|split]].
  - rewrite length_map_to_list, <-(buildAuthorityGraph_dom _ _ Hbuild).
    by rewrite size_dom.
  - rewrite (Permutation_length Hperm).
    symmetry. exact (Forall2_length _ _ _ (builtEdges_Forall2 events Hall)).
  - rewrite union_empty_r_L. apply set_eq. intros contract.
    by rewrite !elem_of_list_to_set, Hperm.
  - rewrite union_empty_r_L. apply set_eq. intros target.
    by rewrite !elem_of_list_to_set, Hperm.
Qed.
End TreeView.

(** ** The test helper *)

Lemma append_assoc (s t u : string) : (s +:+ t) +:+ u = s +:+ (t +:+ u).
Proof.
  induction s as [|c s IH]; [done|]. exact (f_equal (String c) IH).
Qed.

Lemma buildEdge_Throw_loopExceptions (event : Event.t) (e : Exception) :
  buildEdge event = Throw e → e ∈ loopExceptions.
Proof.
  intros (field & -> & Hoff)%buildEdge_Throw. right.
  apply list_elem_of_fmap. exists field. split; [done|].
  unfold requiredFields.
  destruct Hoff as [[-> _]|[[-> _]|[[-> _]|[[-> _]|[[-> _]|[-> _]]]]]];
    repeat first [apply list_elem_of_here | apply list_elem_of_further].
Qed.

Lemma groupEvents_loopExceptions (events : list Event.t)
    (walletGroups : gmap string (list Edge.t)) (e : Exception) :
  groupEvents events walletGroups = Throw e → e ∈ loopExceptions.
Proof.
  revert walletGroups. induction events as [|event events IH];
    intros walletGroups; simpl; [done|].
  destruct (buildEdge event) as [[key edge]|e'] eqn:Hbuild; simpl.
  - unfold pushEdge at 1.
    destruct (walletGroups !! key); simpl; [apply IH|].
    destruct (inherited key); simpl; [|apply IH].
    intros [= <-]. by left.
  - intros [= <-]. by eapply buildEdge_Throw_loopExceptions.
Qed.

Lemma loopExceptions_messages :
  Forall (fun e => includes (Exception_message e) "Expected error" = false)
    loopExceptions.
Proof. repeat constructor. Qed.

Section TestHelper.
Variable localeCompare : string → string → Z.

(** X13. [assertThrows] passes on a call of the builder exactly when the
    call throws: no message of the builder holds the marker by which the
    helper recognises its own failure. *)
Theorem assertThrows_buildAuthorityGraph (input : JsInput) (message : string) :
  match buildAuthorityGraph localeCompare input with
  | Throw e =>
      assertThrows (buildAuthorityGraph localeCompare input) message
      = Ok ("✓ " +:+ message)
  | Ok _ =>
      assertThrows (buildAuthorityGraph localeCompare input) message
      = Throw (Error (message +:+ " - Expected error but none was thrown"))
  end.
Proof.
  destruct (buildAuthorityGraph localeCompare input) as [graphs|e] eqn:Hbuild;
    unfold assertThrows.
  - assert (Hmark : includes
      (message +:+ " - Expected error but none was thrown")
      "Expected error" = true).
    { apply includes_true_iff.
      exists (message +:+ " - "), " but none was thrown".
      by rewrite append_assoc. }
    simpl. by rewrite Hmark.
  - assert (Hmark : includes (Exception_message e) "Expected error" = false).
    { destruct input as [v|events].
      - injection Hbuild as <-. reflexivity.
      - apply buildAuthorityGraph_Throw, groupEvents_loopExceptions in Hbuild.
        pose proof loopExceptions_messages as Hall.
        rewrite Forall_forall in Hall. by apply Hall. }
    by rewrite Hmark.
Qed.
End TestHelper.

End Further.

(** * The further properties on concrete inputs *)

Section FurtherOnInputs.

Existing Instance asciiEngine.

Lemma buildAuthorityGraph_first_failure_witness :
  Forall filed ordered_events
  ∧ ¬ filed undated_event
  ∧ buildAuthorityGraph codeUnitCompare
      (ArrayOf (ordered_events ++ undated_event :: ordered_events))
    = Throw (MissingFieldError "block").
Proof.
  assert (Hfiled : Forall filed ordered_events).
  { repeat constructor; apply filed_buildEdge; eexists _, _;
      (split; [reflexivity | reflexivity]). }
  assert (Hnot : ¬ filed undated_event).
  { intros (key & edge & Hbuild & _)%filed_buildEdge. discriminate Hbuild. }
  split; [exact Hfiled|]. split; [exact Hnot|].
  exact (buildAuthorityGraph_first_failure codeUnitCompare
           ordered_events ordered_events undated_event Hfiled Hnot).
Defined.

Lemma buildEdge_first_missing_witness :
  ∃ earlier field later,
    requiredFields = earlier ++ field :: later
    ∧ MissingFieldError "block" = MissingFieldError field
    ∧ offending field undated_event
    ∧ ∀ name, name ∈ earlier → ¬ offending name undated_event.
Proof.
  apply (buildEdge_first_missing undated_event). reflexivity.
Defined.

Lemma graph_keys_witness :
  ∃ graphs,
    buildAuthorityGraph codeUnitCompare (ArrayOf ordered_events) = Ok graphs
    ∧ (∀ key, is_Some (graphs !! key)
              ↔ ∃ event, event ∈ ordered_events
                         ∧ Event.wallet event = value key)
    ∧ (∀ key graph, graphs !! key = Some graph → authority_edges graph ≠ [])
    ∧ (size graphs ≤ length ordered_events)%nat.
Proof.
  destruct (buildAuthorityGraph codeUnitCompare (ArrayOf ordered_events))
    as [graphs|e] eqn:Hbuild; [|vm_compute in Hbuild; discriminate Hbuild].
  exists graphs. split; [reflexivity|].
  exact (graph_keys codeUnitCompare ordered_events graphs Hbuild).
Defined.

Lemma edge_copies_event_witness :
  ∃ graphs graph edge event,
    buildAuthorityGraph codeUnitCompare (ArrayOf ordered_events) = Ok graphs
    ∧ graphs !! "0xDEF" = Some graph
    ∧ edge ∈ authority_edges graph
    ∧ event ∈ ordered_events
    ∧ Event.wallet event = value "0xDEF"
    ∧ Event.block event = value (Edge.block edge)
    ∧ Edge.amount edge = normalizeAmount (Event.amount event).
Proof.
  destruct (buildAuthorityGraph codeUnitCompare (ArrayOf ordered_events))
    as [graphs|e] eqn:Hbuild; [|vm_compute in Hbuild; discriminate Hbuild].
  destruct (buildAuthorityGraph_event codeUnitCompare ordered_events graphs
              (approval "0xDEF" 101 1712345680 absent absent) Hbuild)
    as (key & graph & edge & Hedge & Hlook & Hin).
  { apply list_elem_of_further, list_elem_of_here. }
  vm_compute in Hedge. injection Hedge as <- <-.
  destruct (edge_copies_event codeUnitCompare ordered_events graphs "0xDEF"
              graph _ Hbuild Hlook Hin)
    as (event & Hevent & Hw & _ & _ & _ & Hb & _ & Ha & _).
  eexists graphs, graph, _, event. by repeat split.
Defined.

Lemma ordered_input_is_kept_witness :
  ∃ graphs graph,
    buildAuthorityGraph codeUnitCompare (ArrayOf ordered_events) = Ok graphs
    ∧ graphs !! "0xABC" = Some graph
    ∧ Sorted (ordered (compareEdges codeUnitCompare))
        (edgesOf "0xABC" ordered_events)
    ∧ authority_edges graph = edgesOf "0xABC" ordered_events.
Proof.
  destruct (buildAuthorityGraph codeUnitCompare (ArrayOf ordered_events))
    as [graphs|e] eqn:Hbuild; [|vm_compute in Hbuild; discriminate Hbuild].
  pose proof (buildAuthorityGraph_lookup codeUnitCompare ordered_events
                graphs "0xABC" Hbuild) as Hlook.
  assert (Hsorted : Sorted (ordered (compareEdges codeUnitCompare))
                      (edgesOf "0xABC" ordered_events)).
  { repeat constructor. by vm_compute. }
  eexists graphs, _. split; [reflexivity|]. split; [exact Hlook|].
  split; [exact Hsorted|].
  exact (ordered_input_is_kept codeUnitCompare ordered_events graphs "0xABC"
           _ Hbuild Hlook Hsorted).
Defined.

Lemma wallet_graph_is_local_witness :
  ∃ graphs graphs',
    buildAuthorityGraph codeUnitCompare (ArrayOf ordered_events) = Ok graphs
    ∧ buildAuthorityGraph codeUnitCompare
        (ArrayOf (filter (hasWallet "0xABC") ordered_events)) = Ok graphs'
    ∧ graphs !! "0xABC" = graphs' !! "0xABC".
Proof.
  destruct (buildAuthorityGraph codeUnitCompare (ArrayOf ordered_events))
    as [graphs|e] eqn:Hbuild; [|vm_compute in Hbuild; discriminate Hbuild].
  destruct (buildAuthorityGraph codeUnitCompare
              (ArrayOf (filter (hasWallet "0xABC") ordered_events)))
    as [graphs'|e] eqn:Hbuild'; [|vm_compute in Hbuild'; discriminate Hbuild'].
  exists graphs, graphs'. split; [reflexivity|]. split; [reflexivity|].
  apply (wallet_graph_is_local codeUnitCompare ordered_events
           (filter (hasWallet "0xABC") ordered_events) graphs graphs' "0xABC"
           Hbuild Hbuild').
  reflexivity.
Defined.

Lemma input_order_is_irrelevant_witness :
  ∃ graphs graphs',
    buildAuthorityGraph codeUnitCompare (ArrayOf ordered_events) = Ok graphs
    ∧ buildAuthorityGraph codeUnitCompare (ArrayOf (reverse ordered_events))
      = Ok graphs'
    ∧ graphs' !! "0xABC" = graphs !! "0xABC".
Proof.
  destruct (buildAuthorityGraph codeUnitCompare (ArrayOf ordered_events))
    as [graphs|e] eqn:Hbuild; [|vm_compute in Hbuild; discriminate Hbuild].
  destruct (input_order_is_irrelevant codeUnitCompare codeUnitCompare_antisym
              ordered_events (reverse ordered_events) graphs "0xABC")
    as (graphs' & Hbuild' & Hsame).
  - symmetry. apply reverse_Permutation.
  - exact Hbuild.
  - intros a b c Ha%list_elem_of_In Hb%list_elem_of_In Hc%list_elem_of_In.
    vm_compute in Ha, Hb, Hc.
    destruct Ha as [<-|[<-|[]]], Hb as [<-|[<-|[]]], Hc as [<-|[<-|[]]];
      vm_compute; intros H1 H2 H3;
      first [exact (H1 H3) | exact (H2 H3) | discriminate H3].
  - intros a b Ha%list_elem_of_In Hb%list_elem_of_In.
    vm_compute in Ha, Hb.
    destruct Ha as [<-|[<-|[]]], Hb as [<-|[<-|[]]];
      vm_compute; intros H1 H2;
      first [reflexivity | destruct (H1 eq_refl) | destruct (H2 eq_refl)].
  - exists graphs, graphs'. split; [reflexivity|].
    split; [exact Hbuild' | exact Hsame].
Defined.

Lemma buildSingleWalletGraph_accepted_witness :
  ∃ graphs,
    buildAuthorityGraph codeUnitCompare (ArrayOf ordered_events) = Ok graphs
    ∧ (buildSingleWalletGraph codeUnitCompare (ArrayOf ordered_events)
       = Throw MultipleWalletsError
       ↔ ∃ first second,
           first ∈ ordered_events ∧ second ∈ ordered_events
           ∧ Event.wallet first ≠ Event.wallet second).
Proof.
  destruct (buildAuthorityGraph codeUnitCompare (ArrayOf ordered_events))
    as [graphs|e] eqn:Hbuild; [|vm_compute in Hbuild; discriminate Hbuild].
  exists graphs. split; [reflexivity|].
  exact (proj1 (proj2 (buildSingleWalletGraph_accepted codeUnitCompare
                         ordered_events graphs Hbuild))).
Defined.

Lemma short_amount_is_kept_witness :
  normalizeAmount (JsString "250000") = "250000".
Proof.
  apply (short_amount_is_kept "250000");
    [reflexivity | simpl; lia | simpl; tauto | simpl; tauto | discriminate].
Defined.

Lemma treeStatistics_of_built_graph_witness :
  ∃ graphs,
    buildAuthorityGraph codeUnitCompare (ArrayOf ordered_events) = Ok graphs
    ∧ totalWallets (treeStatistics graphs) = 2
    ∧ totalEdges (treeStatistics graphs) = 3
    ∧ totalContracts (treeStatistics graphs) = {[ "0xTOKEN" ]}
    ∧ totalTargets (treeStatistics graphs) = {[ "0xDEX" ]}.
Proof.
  destruct (buildAuthorityGraph codeUnitCompare (ArrayOf ordered_events))
    as [graphs|e] eqn:Hbuild; [|vm_compute in Hbuild; discriminate Hbuild].
  exists graphs. split; [reflexivity|].
  destruct (treeStatistics_of_built_graph codeUnitCompare ordered_events
              graphs Hbuild) as (-> & -> & -> & ->).
  split; [vm_compute; reflexivity|].
  split; [reflexivity|]. split; vm_compute; reflexivity.
Defined.

End FurtherOnInputs.
